(** * QuantumBlocks: QFT-based adders (src/main.py)

    A shallow embedding of the gate builders of [src/main.py] and of the
    ideal (exact, noiseless) semantics of the circuits they build.

    - Python integers are [Z]; loop indices run over [range].
    - A circuit is the list of its instructions over qubit positions; a
      gate is a circuit frozen by [to_gate].
    - Angles are exact reals ([PI] for [np.pi]): the rounding of the
      source's doubles is not modelled, their range is (a divisor too large
      for a double raises [OverflowError], see [float_div_int]).
    - A state assigns a complex amplitude to every computational-basis
      label; bit [q] of a label is the value of qubit [q] (Qiskit's
      little-endian convention).
    - Qiskit itself is not part of the repository.  The few library
      operations the builders call ([QuantumRegister], [append], [to_gate],
      [inverse], the library circuit [QFT]) are transcribed below from the
      library, each marked as such. *)

From Stdlib Require Import Reals ZArith List Lia Lra Bool Arith PeanoNat.
From Stdlib Require Import Ascii FunctionalExtensionality.
Import ListNotations.

Set Implicit Arguments.

(* ================================================================= *)
(** ** Exceptions *)

Inductive exn : Type :=
| ValueError         (* raised by the builtin [int] on a non-digit literal *)
| OverflowError      (* raised when an int is too large to become a float *)
| ZeroDivisionError  (* raised by a division by zero *)
| CircuitError       (* raised by the library on a bad register size or arity *)
| QiskitError.       (* raised by the library's [to_gate] on a non-gate *)

Inductive result (A : Type) : Type :=
| Ok (a : A)
| Raise (e : exn).

Arguments Ok {A} a.
Arguments Raise {A} e.

Definition bind {A B : Type} (r : result A) (k : A -> result B) : result B :=
  match r with
  | Ok a => k a
  | Raise e => Raise e
  end.

Notation "x <- r ;; k" := (bind r (fun x => k))
  (at level 61, r at next level, right associativity).

Fixpoint mapM {A B : Type} (f : A -> result B) (l : list A) : result (list B) :=
  match l with
  | [] => Ok []
  | a :: l' => b <- f a ;; bs <- mapM f l' ;; Ok (b :: bs)
  end.

(* ================================================================= *)
(** ** Python builtins used by the builders *)

(** [range(n)] and [range(a, b)]. *)
Definition range (n : Z) : list Z :=
  map Z.of_nat (seq 0 (Z.to_nat n)).

Definition range2 (a b : Z) : list Z :=
  map (fun t => (a + Z.of_nat t)%Z) (seq 0 (Z.to_nat (b - a))).

(** [for x in xs: body] over a threaded state; the first exception the
    body raises ends the loop. *)
Fixpoint for_each {A S : Type} (xs : list A) (body : A -> S -> result S) (s : S)
  : result S :=
  match xs with
  | [] => Ok s
  | x :: xs' => s' <- body x s ;; for_each xs' body s'
  end.

(** [x / n] for a float [x] and an int [n].  Python first converts [n] to
    a double, rounding to nearest, ties to even: this raises
    [OverflowError] as soon as [|n| >= 2^1024 - 2^970], the integers that
    round to [2^1024] or lie beyond.  A zero divisor raises
    [ZeroDivisionError].  The quotient is taken over the reals. *)
Definition float_div_int (x : R) (n : Z) : result R :=
  if (2 ^ 1024 - 2 ^ 970 <=? Z.abs n)%Z then Raise OverflowError
  else if (n =? 0)%Z then Raise ZeroDivisionError
  else Ok (x / IZR n)%R.

(** Binary digits of a positive number, most significant first. *)
Fixpoint bin_digits (p : positive) (acc : list ascii) : list ascii :=
  match p with
  | xH => "1"%char :: acc
  | xO p' => bin_digits p' ("0"%char :: acc)
  | xI p' => bin_digits p' ("1"%char :: acc)
  end.

(** [bin(k)]: ['0b...'] for [k >= 0], ['-0b...'] for [k < 0]. *)
Definition bin (k : Z) : list ascii :=
  match k with
  | Z0 => ["0"; "b"; "0"]%char
  | Zpos p => "0"%char :: "b"%char :: bin_digits p []
  | Zneg p => "-"%char :: "0"%char :: "b"%char :: bin_digits p []
  end.

(** The slice [s[-1:1:-1]]: indices [len-1] down to [2], in that order. *)
Definition slice_last_to_2 (s : list ascii) : list ascii :=
  rev (skipn 2 s).

(** [int(c)] on a one-character string. *)
Definition int_of_char (c : ascii) : result Z :=
  let n := nat_of_ascii c in
  if ((48 <=? n) && (n <=? 57))%nat then Ok (Z.of_nat (n - 48)) else Raise ValueError.

(* ================================================================= *)
(** ** Circuits and gates *)

Inductive instr : Type :=
| H (q : nat)                    (* qc.h(q) *)
| P (theta : R) (q : nat)        (* qc.p(theta, q) *)
| CP (theta : R) (c t : nat)     (* qc.cp(theta, c, t) *)
| SWAP (a b : nat)               (* qc.swap(a, b) *)
| Barrier.                       (* qc.barrier() *)

Record Gate : Type := mkGate
  { num_qubits : nat;
    definition : list instr }.

Record QuantumCircuit : Type := mkQC
  { qc_qubits : nat;
    qc_data : list instr }.

(** [QuantumCircuit()] *)
Definition new_circuit : QuantumCircuit := mkQC 0 [].

(** Library: [QuantumRegister(size)].  The library refuses a negative
    size and accepts every other integer, zero included.  The register is
    represented by its size until it is added to a circuit. *)
Definition QuantumRegister (size : Z) : result nat :=
  if (size <? 0)%Z then Raise CircuitError else Ok (Z.to_nat size).

(** Library: [qc.add_register(reg)] gives the register's qubits the next
    free positions of the circuit.  The second component lists them, as
    [list(reg)] does. *)
Definition add_register (qc : QuantumCircuit) (size : nat)
  : QuantumCircuit * list nat :=
  (mkQC (qc_qubits qc + size) (qc_data qc), seq (qc_qubits qc) size).

(** [reg[i]] for an index the loops keep within the register. *)
Definition qubit_at (reg : list nat) (i : Z) : nat :=
  nth (Z.to_nat i) reg 0%nat.

Definition emit (g : instr) (qc : QuantumCircuit) : QuantumCircuit :=
  mkQC (qc_qubits qc) (qc_data qc ++ [g]).

Definition h (q : nat) := emit (H q).
Definition p (theta : R) (q : nat) := emit (P theta q).
Definition cp (theta : R) (c t : nat) := emit (CP theta c t).
Definition swap (a b : nat) := emit (SWAP a b).
Definition barrier := emit Barrier.

(** Library: [qc.to_gate()]. *)
Definition to_gate (qc : QuantumCircuit) : Gate :=
  mkGate (qc_qubits qc) (qc_data qc).

(** Library: placing a gate on the qubits [qargs] of a circuit replaces
    local position [i] of its definition by [qargs[i]]. *)
Definition relabel (qargs : list nat) (g : instr) : instr :=
  let at_ i := nth i qargs 0%nat in
  match g with
  | H q => H (at_ q)
  | P theta q => P theta (at_ q)
  | CP theta c t => CP theta (at_ c) (at_ t)
  | SWAP a b => SWAP (at_ a) (at_ b)
  | Barrier => Barrier
  end.

(** Library: [qc.append(gate, qargs)] checks the arity. *)
Definition append (g : Gate) (qargs : list nat) (qc : QuantumCircuit)
  : result QuantumCircuit :=
  if (length qargs =? num_qubits g)%nat
  then Ok (mkQC (qc_qubits qc) (qc_data qc ++ map (relabel qargs) (definition g)))
  else Raise CircuitError.

(** Library: the inverse of a gate is its definition reversed, every
    instruction replaced by its own inverse. *)
Definition inverse_instr (g : instr) : instr :=
  match g with
  | H q => H q
  | P theta q => P (- theta) q
  | CP theta c t => CP (- theta) c t
  | SWAP a b => SWAP a b
  | Barrier => Barrier
  end.

Definition inverse_circuit (c : list instr) : list instr :=
  rev (map inverse_instr c).

Definition inverse (g : Gate) : Gate :=
  mkGate (num_qubits g) (inverse_circuit (definition g)).

(* ================================================================= *)
(** ** The builders of src/main.py *)

(** [qubit_list] of some registers: their qubits, concatenated
    ([sum(register_list, [])]). *)
Definition qubit_list (registers : list (list nat)) : list nat :=
  fold_left (fun acc r => acc ++ r) registers [].

(** Library: the circuit [QFT(num_qubits, approximation_degree, do_swaps,
    inverse, insert_barriers)] of qiskit.circuit.library.  For [j] from the
    top qubit down: a Hadamard on [j], then controlled phases [pi * 2^(k-j)]
    between [j] and the qubits [k] below it (the [approximation_degree]
    smallest angles left out); then the swaps reversing the qubit order
    when [do_swaps]; the whole reversed and inverted when [inverse]. *)
Definition QFT_body (n approximation_degree : Z) (insert_barriers : bool)
  : list instr :=
  flat_map (fun j =>
    let num_entanglements :=
      Z.max 0 (j - Z.max 0 (approximation_degree - (n - j - 1))) in
    H (Z.to_nat j)
    :: map (fun k => CP (PI * powerRZ 2 (k - j)) (Z.to_nat j) (Z.to_nat k))
         (rev (range2 (j - num_entanglements) j))
    ++ (if insert_barriers then [Barrier] else []))
  (rev (range n)).

Definition QFT_swaps (n : Z) : list instr :=
  map (fun i => SWAP (Z.to_nat i) (Z.to_nat (n - i - 1))) (range (n / 2)).

Definition QFT (n approximation_degree : Z) (do_swaps inv insert_barriers : bool)
  : list instr :=
  let circuit :=
    QFT_body n approximation_degree insert_barriers
    ++ (if do_swaps then QFT_swaps n else []) in
  if inv then inverse_circuit circuit else circuit.

(** [QFTGate(num_qubits, approximation_degree=0, do_swaps=True,
    inverse=False, insert_barriers=False, name=None)], for counts that are
    natural numbers, boolean options and the default name.  With
    [insert_barriers] the library wraps the body of a non-empty transform
    as an instruction that is not a gate, and [qc.to_gate()] refuses it
    with [QiskitError]; the transform on no qubit is the empty circuit. *)
Definition QFTGate (num_qubits approximation_degree : nat)
           (do_swaps inv insert_barriers : bool) : result Gate :=
  let qc := QFT (Z.of_nat num_qubits) (Z.of_nat approximation_degree)
                do_swaps inv insert_barriers in
  if insert_barriers && (0 <? num_qubits)%nat then Raise QiskitError
  else Ok (mkGate num_qubits qc).

(** [AdderPhaseGate(target_reg_length, summand_reg_length)] *)
Definition AdderPhaseGate (target_reg_length summand_reg_length : Z) : result Gate :=
  let qc := new_circuit in
  target_size <- QuantumRegister target_reg_length ;;
  summand_size <- QuantumRegister summand_reg_length ;;
  let '(qc, target_reg) := add_register qc target_size in
  let '(qc, summand_reg) := add_register qc summand_size in
  qc <- for_each (range target_reg_length) (fun i =>
          for_each (range (Z.min (i + 1) summand_reg_length)) (fun j qc =>
            theta <- float_div_int (2 * PI) (2 ^ (1 + i - j)) ;;
            Ok (cp theta (qubit_at summand_reg j) (qubit_at target_reg i) qc)))
          qc ;;
  Ok (to_gate qc).

(** [ClassicalAdderPhaseGate(target_reg_length, k)] *)
Definition ClassicalAdderPhaseGate (target_reg_length k : Z) : result Gate :=
  let bit_string := slice_last_to_2 (bin k) in
  bits <- mapM int_of_char bit_string ;;
  let qc := new_circuit in
  target_size <- QuantumRegister target_reg_length ;;
  let '(qc, target_reg) := add_register qc target_size in
  qc <- for_each (range target_reg_length) (fun i =>
          for_each (range (Z.min (i + 1) (Z.of_nat (length bits)))) (fun j qc =>
            if (nth (Z.to_nat j) bits 0 =? 1)%Z
            then theta <- float_div_int (2 * PI) (2 ^ (1 + i - j)) ;;
                 Ok (p theta (qubit_at target_reg i) qc)
            else Ok qc))
          qc ;;
  Ok (to_gate qc).

(** [AdderGate(target_reg_length, summand_reg_length)].  Where [QFTGate]
    is called the target register exists, so [target_reg_length] is the
    natural number [target_size]. *)
Definition AdderGate (target_reg_length summand_reg_length : Z) : result Gate :=
  let qc := new_circuit in
  target_size <- QuantumRegister target_reg_length ;;
  summand_size <- QuantumRegister summand_reg_length ;;
  let '(qc, target_reg) := add_register qc target_size in
  let '(qc, summand_reg) := add_register qc summand_size in
  qft_n <- QFTGate target_size 0 false false false ;;
  add_phase_gate <- AdderPhaseGate target_reg_length summand_reg_length ;;
  qc <- append qft_n target_reg qc ;;
  qc <- append add_phase_gate (qubit_list [target_reg; summand_reg]) qc ;;
  qc <- append (inverse qft_n) target_reg qc ;;
  Ok (to_gate qc).

(** [ClassicalAdderGate(target_reg_length, k)]; [QFTGate] receives
    [target_reg_length] as in [AdderGate]. *)
Definition ClassicalAdderGate (target_reg_length k : Z) : result Gate :=
  let qc := new_circuit in
  target_size <- QuantumRegister target_reg_length ;;
  let '(qc, target_reg) := add_register qc target_size in
  qft_n <- QFTGate target_size 0 false false false ;;
  add_phase_gate <- ClassicalAdderPhaseGate target_reg_length k ;;
  qc <- append qft_n target_reg qc ;;
  qc <- append add_phase_gate (qubit_list [target_reg]) qc ;;
  qc <- append (inverse qft_n) target_reg qc ;;
  Ok (to_gate qc).

(** The circuit assembled by [main()], up to [measure_all]. *)
Definition main_circuit : result QuantumCircuit :=
  let sol_bits := 3%Z in
  let sum_bits := 2%Z in
  let qc := new_circuit in
  target_size <- QuantumRegister sol_bits ;;
  summand_size <- QuantumRegister sum_bits ;;
  let '(qc, target_reg) := add_register qc target_size in
  let '(qc, summand_reg) := add_register qc summand_size in
  let qc := h (qubit_at summand_reg 0) qc in
  adder_gate <- AdderGate sol_bits sum_bits ;;
  add_1_gate <- ClassicalAdderGate sol_bits 1 ;;
  add_2_gate <- ClassicalAdderGate sol_bits 2 ;;
  qc <- append adder_gate (qubit_list [target_reg; summand_reg]) qc ;;
  qc <- append add_1_gate (qubit_list [target_reg]) qc ;;
  qc <- append add_2_gate (qubit_list [target_reg]) qc ;;
  Ok qc.

(* ================================================================= *)
(** ** Complex amplitudes *)

Definition C : Type := (R * R)%type.

Definition C0 : C := (0%R, 0%R).
Definition C1 : C := (1%R, 0%R).
Definition Cadd (a b : C) : C := ((fst a + fst b)%R, (snd a + snd b)%R).
Definition Copp (a : C) : C := ((- fst a)%R, (- snd a)%R).
Definition Cmul (a b : C) : C :=
  ((fst a * fst b - snd a * snd b)%R, (fst a * snd b + snd a * fst b)%R).
Definition Cscale (r : R) (a : C) : C := ((r * fst a)%R, (r * snd a)%R).

(** [e^(i theta)] *)
Definition Cexp (theta : R) : C := (cos theta, sin theta).

(** Squared modulus: the probability carried by an amplitude. *)
Definition Cnorm2 (a : C) : R := (fst a * fst a + snd a * snd a)%R.

(* ================================================================= *)
(** ** States and the action of the instructions *)

(** A state gives every basis label its amplitude; bit [q] of the label
    is the value of qubit [q]. *)
Definition state : Type := nat -> C.

Definition ket (x : nat) : state :=
  fun y => if (y =? x)%nat then C1 else C0.

Definition set_bit (y q : nat) (v : bool) : nat :=
  if v then Nat.setbit y q else Nat.clearbit y q.

Definition swap_bits (y a b : nat) : nat :=
  set_bit (set_bit y a (Nat.testbit y b)) b (Nat.testbit y a).

(** The unitaries of the library's standard gates:
    [H = 1/sqrt 2 [[1, 1], [1, -1]]], [P(theta) = diag(1, e^(i theta))],
    [CP(theta) = diag(1, 1, 1, e^(i theta))], [SWAP] exchanges two qubits. *)
Definition apply (g : instr) (psi : state) : state :=
  match g with
  | H q => fun y =>
      Cscale (/ sqrt 2)
        (Cadd (psi (set_bit y q false))
              (if Nat.testbit y q
               then Copp (psi (set_bit y q true))
               else psi (set_bit y q true)))
  | P theta q => fun y =>
      if Nat.testbit y q then Cmul (Cexp theta) (psi y) else psi y
  | CP theta c t => fun y =>
      if Nat.testbit y c && Nat.testbit y t
      then Cmul (Cexp theta) (psi y) else psi y
  | SWAP a b => fun y => psi (swap_bits y a b)
  | Barrier => psi
  end.

Definition run (c : list instr) (psi : state) : state :=
  fold_left (fun s g => apply g s) c psi.

Definition run_gate (g : Gate) : state -> state := run (definition g).

(** Linear combinations of states. *)
Definition sadd (psi phi : state) : state := fun y => Cadd (psi y) (phi y).
Definition sscale (r : R) (psi : state) : state := fun y => Cscale r (psi y).

(** [measure_all]: the probability of reading the label [y]. *)
Definition prob (psi : state) (y : nat) : R := Cnorm2 (psi y).

(** Two registers side by side: the target on the low [T] qubits, the
    summand above it. *)
Definition encode (T x s : nat) : nat := x + 2 ^ T * s.
Definition target_value (T y : nat) : nat := y mod 2 ^ T.
Definition summand_value (T S y : nat) : nat := (y / 2 ^ T) mod 2 ^ S.

(* ================================================================= *)
(** ** The builders' output, as the specification words it *)

(** Phase-Adder: for each target index [i] in [[0, T)] and each summand
    index [j] in [[0, min (i+1) S)], one controlled rotation of angle
    [2 pi / 2^(1+i-j)], controlled by [summand[j]] (position [T + j]),
    targeting [target[i]] (position [i]). *)
Definition spec_phase_adder (T S : nat) : list instr :=
  flat_map (fun i =>
    map (fun j => CP (2 * PI / 2 ^ (1 + i - j)) (T + j) i)
        (seq 0 (Nat.min (i + 1) S)))
    (seq 0 T).

(** Length of the binary expansion of [k >= 0]; zero is written [0]. *)
Definition bit_length (k : Z) : nat :=
  if (k =? 0)%Z then 1%nat else Z.to_nat (Z.log2 k + 1).

(** Classical Phase-Adder: the same loop, with an unconditional rotation
    on [target[i]] for every bit [j] of [k] that is set. *)
Definition spec_classical_phase_adder (T : nat) (k : Z) : list instr :=
  flat_map (fun i =>
    flat_map (fun j =>
      if Z.testbit k (Z.of_nat j)
      then [P (2 * PI / 2 ^ (1 + i - j)) i] else [])
      (seq 0 (Nat.min (i + 1) (bit_length k))))
    (seq 0 T).

(** Least-significant-first binary digits of a positive number. *)
Fixpoint pos_bits (p : positive) : list Z :=
  match p with
  | xH => [1%Z]
  | xO p' => 0%Z :: pos_bits p'
  | xI p' => 1%Z :: pos_bits p'
  end.

Definition lsb_bits (k : Z) : list Z :=
  match k with
  | Z0 => [0%Z]
  | Zpos p => pos_bits p
  | Zneg _ => []
  end.

Definition bit_char (b : Z) : ascii :=
  if (b =? 1)%Z then "1"%char else "0"%char.

(** The classical phase adder needs an angle the source cannot compute
    when a set bit [j] of [k] meets a target index [i >= j + 1023]. *)
Definition phase_overflows (T : nat) (k : Z) : bool :=
  existsb (fun j => Z.testbit k (Z.of_nat j) && (j + 1024 <=? T)%nat) (seq 0 T).

(* ================================================================= *)
(** ** Phases of diagonal circuits and the Fourier basis *)

(** The fraction [a / 2^m] of a full turn. *)
Definition turn (a m : nat) : R := (2 * PI * INR a / 2 ^ m)%R.

Definition rsum (l : list R) : R := fold_right Rplus 0%R l.

Fixpoint big_mul (l : list nat) (f : nat -> C) : C :=
  match l with
  | [] => C1
  | i :: l' => Cmul (f i) (big_mul l' f)
  end.

(** Instructions that only multiply amplitudes by a phase, and the angle
    they contribute at the label [y]. *)
Definition diagonal (g : instr) : Prop :=
  match g with
  | P _ _ | CP _ _ _ | Barrier => True
  | H _ | SWAP _ _ => False
  end.

Definition instr_phase (g : instr) (y : nat) : R :=
  match g with
  | P theta q => if Nat.testbit y q then theta else 0%R
  | CP theta c t => if Nat.testbit y c && Nat.testbit y t then theta else 0%R
  | _ => 0%R
  end.

Definition total_phase (c : list instr) (y : nat) : R :=
  rsum (map (fun g => instr_phase g y) c).

(** The phase qubit [i] carries in the swap-free Fourier transform of the
    value [a]: [e^(2 pi i a / 2^(i+1))] on its [|1>] component. *)
Definition kick (a y i : nat) : C :=
  if Nat.testbit y i then Cexp (turn a (i + 1)) else C1.

Definition diag_phase (lo len a y : nat) : C :=
  big_mul (seq lo len) (kick a y).

(** [y] and [z] agree on every qubit outside [[j, T)]. *)
Definition agree_outside (j T z y : nat) : bool :=
  ((y mod 2 ^ j =? z mod 2 ^ j) && (y / 2 ^ T =? z / 2 ^ T))%nat.

(** The state of the swap-free transform on [T] qubits, started on
    [ket z], once the qubits [j .. T-1] have been processed. *)
Definition qft_stage (T j z : nat) : state :=
  fun y =>
    if agree_outside j T z y
    then Cscale ((/ sqrt 2) ^ (T - j)) (diag_phase j (T - j) z y)
    else C0.

(** The same while qubit [q] is being processed: its Hadamard is done and
    so are the controlled phases from the qubits [k0 .. q-1]. *)
Definition qft_inner (T q k0 z : nat) : state :=
  fun y =>
    if agree_outside q T z y
    then Cscale ((/ sqrt 2) ^ (T - q))
           (Cmul (if Nat.testbit y q
                  then Cexp (turn (z mod 2 ^ (q + 1) - z mod 2 ^ k0) (q + 1))
                  else C1)
                 (diag_phase (q + 1) (T - q - 1) z y))
    else C0.

(** The Fourier-basis image of [ket z] on the low [T] qubits. *)
Definition fourier (T z : nat) : state := qft_stage T 0 z.

(** Every qubit an instruction touches lies below [n]. *)
Definition fits (n : nat) (g : instr) : Prop :=
  match g with
  | H q | P _ q => (q < n)%nat
  | CP _ c t => (c < n)%nat /\ (t < n)%nat
  | SWAP a b => (a < n)%nat /\ (b < n)%nat
  | Barrier => True
  end.

(** The swap-free transform on [T] qubits as a list of rows over [nat]. *)
Definition qft_row (j : nat) : list instr :=
  H j :: map (fun k => CP (PI / 2 ^ (j - k)) j k) (rev (seq 0 j)).

Definition qft_circuit (T : nat) : list instr :=
  flat_map qft_row (rev (seq 0 T)).

(** Measuring all [n] qubits: the probability of reading a label that
    satisfies [sel]. *)
Definition event_prob (n : nat) (sel : nat -> bool) (psi : state) : R :=
  rsum (map (fun y => if sel y then prob psi y else 0%R) (seq 0 (2 ^ n))).

(* ================================================================= *)
(** ** Further notions used to describe the builders *)

(** The value a least-significant-first bit list stands for. *)
Definition decode_bits (bits : list Z) : Z :=
  fold_right (fun b acc => (b + 2 * acc)%Z) 0%Z bits.

(** Finite sums of amplitudes. *)
Definition csum (l : list nat) (f : nat -> C) : C :=
  fold_right (fun x acc => Cadd (f x) acc) C0 l.

(** What the adders do to a basis label: the target field receives the
    addend modulo [2^T], every other qubit keeps its value. *)
Definition add_const_label (T k z : nat) : nat :=
  encode T ((target_value T z + k) mod 2 ^ T) (z / 2 ^ T).

Definition add_summand_label (T S z : nat) : nat :=
  add_const_label T (summand_value T S z) z.

(** ... and the labels they are reached from. *)
Definition sub_const_label (T k y : nat) : nat :=
  encode T ((target_value T y + (2 ^ T - k mod 2 ^ T)) mod 2 ^ T) (y / 2 ^ T).

Definition sub_summand_label (T S y : nat) : nat :=
  sub_const_label T (summand_value T S y) y.

(* ================================================================= *)
(** * Proofs *)

(** ** Complex arithmetic *)

Ltac cring :=
  repeat match goal with a : C |- _ => destruct a end;
  unfold Cadd, Cmul, Cscale, Copp, C0, C1, Cnorm2; simpl;
  try (apply injective_projections; simpl); try ring.

Lemma Cmul_1_l (a : C) : Cmul C1 a = a.
Proof. cring. Qed.

Lemma Cmul_1_r (a : C) : Cmul a C1 = a.
Proof. cring. Qed.

Lemma Cmul_0_l (a : C) : Cmul C0 a = C0.
Proof. cring. Qed.

Lemma Cmul_0_r (a : C) : Cmul a C0 = C0.
Proof. cring. Qed.

Lemma Cmul_assoc (a b c : C) : Cmul a (Cmul b c) = Cmul (Cmul a b) c.
Proof. cring. Qed.

Lemma Cexp_0 : Cexp 0 = C1.
Proof. unfold Cexp, C1. now rewrite cos_0, sin_0. Qed.

Lemma Cexp_add (a b : R) : Cexp (a + b) = Cmul (Cexp a) (Cexp b).
Proof.
  unfold Cexp, Cmul; simpl. rewrite cos_plus, sin_plus.
  apply injective_projections; simpl; ring.
Qed.

Lemma Cexp_neg_l (a : R) : Cmul (Cexp (- a)) (Cexp a) = C1.
Proof.
  rewrite <- Cexp_add. replace (- a + a)%R with 0%R by ring. apply Cexp_0.
Qed.

Lemma Cexp_PI : Cexp PI = Copp C1.
Proof.
  unfold Cexp, Copp, C1; simpl. rewrite cos_PI, sin_PI.
  apply injective_projections; simpl; ring.
Qed.

Lemma Cexp_2PI_nat (k : nat) : Cexp (2 * INR k * PI) = C1.
Proof.
  unfold Cexp, C1.
  replace (2 * INR k * PI)%R with (0 + 2 * INR k * PI)%R by ring.
  now rewrite cos_period, sin_period, cos_0, sin_0.
Qed.

Lemma sqrt2_inv_sq : (/ sqrt 2 * / sqrt 2 = / 2)%R.
Proof.
  rewrite <- Rinv_mult. f_equal. apply sqrt_def. lra.
Qed.

(** ** Bits of basis labels *)

Lemma testbit_set_bit (y q m : nat) (v : bool) :
  Nat.testbit (set_bit y q v) m = if (q =? m)%nat then v else Nat.testbit y m.
Proof.
  unfold set_bit. destruct v.
  - rewrite Nat.setbit_eqb. now destruct (q =? m)%nat.
  - rewrite Nat.clearbit_eqb. destruct (q =? m)%nat; simpl.
    + apply andb_false_r.
    + apply andb_true_r.
Qed.

Lemma set_bit_set_bit (y q : nat) (v w : bool) :
  set_bit (set_bit y q v) q w = set_bit y q w.
Proof.
  apply Nat.bits_inj. intro m. rewrite !testbit_set_bit.
  now destruct (q =? m)%nat.
Qed.

Lemma set_bit_same (y q : nat) : set_bit y q (Nat.testbit y q) = y.
Proof.
  apply Nat.bits_inj. intro m. rewrite testbit_set_bit.
  destruct (Nat.eqb_spec q m); congruence.
Qed.

Lemma swap_bits_invol (y a b : nat) : swap_bits (swap_bits y a b) a b = y.
Proof.
  apply Nat.bits_inj. intro m. unfold swap_bits.
  repeat rewrite testbit_set_bit.
  repeat match goal with
         | |- context [(?u =? ?v)%nat] => destruct (Nat.eqb_spec u v); subst
         end; try congruence; reflexivity.
Qed.

(** ** A gate followed by its inverse *)

Lemma apply_inverse_instr (g : instr) (psi : state) :
  apply (inverse_instr g) (apply g psi) = psi.
Proof.
  extensionality y.
  destruct g as [q | theta q | theta c t | a b | ]; cbn [apply inverse_instr].
  - rewrite !testbit_set_bit, Nat.eqb_refl, !set_bit_set_bit.
    replace (psi y) with (psi (set_bit y q (Nat.testbit y q)))
      by now rewrite set_bit_same.
    destruct (Nat.testbit y q);
      generalize (psi (set_bit y q false)), (psi (set_bit y q true));
      intros [a1 a2] [b1 b2]; unfold Cscale, Cadd, Copp; cbn [fst snd];
      pose proof sqrt2_inv_sq as E;
      apply injective_projections; cbn [fst snd].
    + transitivity (/ sqrt 2 * / sqrt 2 * (2 * b1))%R; [ring | rewrite E; field].
    + transitivity (/ sqrt 2 * / sqrt 2 * (2 * b2))%R; [ring | rewrite E; field].
    + transitivity (/ sqrt 2 * / sqrt 2 * (2 * a1))%R; [ring | rewrite E; field].
    + transitivity (/ sqrt 2 * / sqrt 2 * (2 * a2))%R; [ring | rewrite E; field].
  - destruct (Nat.testbit y q); [| reflexivity].
    now rewrite Cmul_assoc, Cexp_neg_l, Cmul_1_l.
  - destruct (Nat.testbit y c && Nat.testbit y t); [| reflexivity].
    now rewrite Cmul_assoc, Cexp_neg_l, Cmul_1_l.
  - now rewrite swap_bits_invol.
  - reflexivity.
Qed.

Lemma run_app (c d : list instr) (psi : state) :
  run (c ++ d) psi = run d (run c psi).
Proof. unfold run. apply fold_left_app. Qed.

Lemma run_inverse_circuit (c : list instr) (psi : state) :
  run (inverse_circuit c) (run c psi) = psi.
Proof.
  revert psi. induction c as [| g c IH]; intro psi; [reflexivity |].
  unfold inverse_circuit in *. simpl. rewrite run_app, IH. simpl.
  apply apply_inverse_instr.
Qed.

Lemma inverse_instr_invol (g : instr) : inverse_instr (inverse_instr g) = g.
Proof. destruct g; simpl; try reflexivity; now rewrite Ropp_involutive. Qed.

Lemma inverse_circuit_invol (c : list instr) :
  inverse_circuit (inverse_circuit c) = c.
Proof.
  unfold inverse_circuit. rewrite map_rev, rev_involutive, map_map.
  rewrite <- (map_id c) at 2. apply map_ext. apply inverse_instr_invol.
Qed.

Lemma run_circuit_inverse (c : list instr) (psi : state) :
  run c (run (inverse_circuit c) psi) = psi.
Proof.
  rewrite <- (inverse_circuit_invol c) at 1. apply run_inverse_circuit.
Qed.

(** ** The loops of the builders *)

Lemma for_each_emit {A : Type} (xs : list A) (F : A -> list instr)
      (body : A -> QuantumCircuit -> result QuantumCircuit) :
  (forall x qc, In x xs ->
     body x qc = Ok (mkQC (qc_qubits qc) (qc_data qc ++ F x))) ->
  forall qc, for_each xs body qc
             = Ok (mkQC (qc_qubits qc) (qc_data qc ++ flat_map F xs)).
Proof.
  induction xs as [| x xs IH]; intros Hbody qc; cbn [for_each flat_map].
  - rewrite app_nil_r. now destruct qc.
  - rewrite Hbody by now left. cbn [bind].
    rewrite IH by (intros; apply Hbody; now right).
    cbn [qc_qubits qc_data]. now rewrite <- app_assoc.
Qed.

Lemma for_each_ok_or_raise {A S : Type} (e : exn) (xs : list A)
      (body : A -> S -> result S) :
  (forall x s, In x xs -> body x s = Raise e \/ exists s', body x s = Ok s') ->
  forall s, for_each xs body s = Raise e
            \/ exists s', for_each xs body s = Ok s'.
Proof.
  induction xs as [| x xs IH]; intros Hbody s; cbn [for_each].
  - right. now exists s.
  - destruct (Hbody x s ltac:(now left)) as [-> | [s' ->]]; cbn [bind].
    + now left.
    + apply IH. intros; apply Hbody; now right.
Qed.

Lemma for_each_raise {A S : Type} (e : exn) (xs : list A)
      (body : A -> S -> result S) :
  (forall x s, In x xs -> body x s = Raise e \/ exists s', body x s = Ok s') ->
  (exists x, In x xs /\ forall s, body x s = Raise e) ->
  forall s, for_each xs body s = Raise e.
Proof.
  induction xs as [| x xs IH]; intros Hbody [x0 [Hin Hx0]] s; [destruct Hin |].
  cbn [for_each].
  destruct Hin as [-> | Hin].
  - now rewrite Hx0.
  - destruct (Hbody x s ltac:(now left)) as [-> | [s' ->]]; cbn [bind];
      [reflexivity |].
    apply IH; [intros; apply Hbody; now right | now exists x0].
Qed.

Lemma in_range (n : nat) (x : Z) :
  In x (range (Z.of_nat n)) <-> exists m : nat, (m < n)%nat /\ x = Z.of_nat m.
Proof.
  unfold range. rewrite Nat2Z.id, in_map_iff. split.
  - intros [m [<- Hm]]. apply in_seq in Hm. exists m. split; [lia | reflexivity].
  - intros [m [Hm ->]]. exists m. split; [reflexivity | apply in_seq; lia].
Qed.

(** ** Dividing a float by a power of two *)

Lemma float_limit_above : (2 ^ 1023 < 2 ^ 1024 - 2 ^ 970)%Z.
Proof. now vm_compute. Qed.

Lemma float_limit_below : (2 ^ 1024 - 2 ^ 970 <= 2 ^ 1024)%Z.
Proof. now vm_compute. Qed.

Lemma float_div_pow2_ok (x : R) (e : Z) :
  (0 <= e <= 1023)%Z ->
  float_div_int x (2 ^ e) = Ok (x / IZR (2 ^ e))%R.
Proof.
  intros He. unfold float_div_int.
  assert (Hpos : (0 < 2 ^ e)%Z) by (apply Z.pow_pos_nonneg; lia).
  assert (Hle : (2 ^ e <= 2 ^ 1023)%Z) by (apply Z.pow_le_mono_r; lia).
  pose proof float_limit_above as Hlim.
  rewrite Z.abs_eq by lia.
  destruct (Z.leb_spec (2 ^ 1024 - 2 ^ 970) (2 ^ e)) as [Hbig | _]; [lia |].
  destruct (Z.eqb_spec (2 ^ e) 0) as [E0 | _]; [lia | reflexivity].
Qed.

Lemma float_div_pow2_overflow (x : R) (e : Z) :
  (1024 <= e)%Z -> float_div_int x (2 ^ e) = Raise OverflowError.
Proof.
  intros He. unfold float_div_int.
  assert (Hge : (2 ^ 1024 <= 2 ^ e)%Z) by (apply Z.pow_le_mono_r; lia).
  pose proof float_limit_below as Hlim.
  rewrite Z.abs_eq by lia.
  destruct (Z.leb_spec (2 ^ 1024 - 2 ^ 970) (2 ^ e)) as [_ | Hsmall];
    [reflexivity | lia].
Qed.

Lemma float_div_pow2_cases (x : R) (e : Z) :
  (0 <= e)%Z ->
  float_div_int x (2 ^ e) = Raise OverflowError
  \/ float_div_int x (2 ^ e) = Ok (x / IZR (2 ^ e))%R.
Proof.
  intros He. destruct (Z.le_gt_cases 1024 e).
  - left. now apply float_div_pow2_overflow.
  - right. apply float_div_pow2_ok. lia.
Qed.

Lemma flat_map_range {B : Type} (F : Z -> list B) (n : nat) :
  flat_map F (range (Z.of_nat n)) = flat_map (fun i => F (Z.of_nat i)) (seq 0 n).
Proof.
  unfold range. rewrite Nat2Z.id.
  induction (seq 0 n) as [| a l IH]; simpl; [reflexivity | now rewrite IH].
Qed.

Lemma flat_map_ext_in {A B : Type} (f g : A -> list B) (l : list A) :
  (forall a, In a l -> f a = g a) -> flat_map f l = flat_map g l.
Proof.
  induction l as [| a l IH]; intros Hfg; simpl; [reflexivity |].
  rewrite Hfg by now left. f_equal. apply IH. intros; apply Hfg. now right.
Qed.

Lemma flat_map_singleton {A B : Type} (f : A -> B) (l : list A) :
  flat_map (fun a => [f a]) l = map f l.
Proof. induction l; simpl; congruence. Qed.

Lemma qubit_at_seq (a n i : nat) :
  (i < n)%nat -> qubit_at (seq a n) (Z.of_nat i) = (a + i)%nat.
Proof. intros Hi. unfold qubit_at. rewrite Nat2Z.id. now apply seq_nth. Qed.

Lemma IZR_pow2 (n : nat) : IZR (2 ^ Z.of_nat n) = (2 ^ n)%R.
Proof. now rewrite <- pow_IZR. Qed.

Lemma angle_nat (i j : nat) :
  (j <= i)%nat ->
  (2 * PI / IZR (2 ^ (1 + Z.of_nat i - Z.of_nat j)) = 2 * PI / 2 ^ (1 + i - j))%R.
Proof.
  intros Hji.
  replace (1 + Z.of_nat i - Z.of_nat j)%Z with (Z.of_nat (1 + i - j)) by lia.
  now rewrite IZR_pow2.
Qed.

(** ** What [AdderPhaseGate] builds *)

Lemma AdderPhaseGate_eq (T S : nat) :
  (T <= 1023 \/ S = 0)%nat ->
  AdderPhaseGate (Z.of_nat T) (Z.of_nat S)
  = Ok (mkGate (T + S) (spec_phase_adder T S)).
Proof.
  intros Hsmall. unfold AdderPhaseGate, QuantumRegister.
  destruct (Z.ltb_spec (Z.of_nat T) 0) as [? | _]; [lia |].
  destruct (Z.ltb_spec (Z.of_nat S) 0) as [? | _]; [lia |].
  cbn [bind add_register new_circuit qc_qubits qc_data]. rewrite !Nat2Z.id.
  rewrite for_each_emit
    with (F := fun i => flat_map (fun j =>
                 [CP (2 * PI / IZR (2 ^ (1 + i - j)))
                     (qubit_at (seq (0 + T) S) j) (qubit_at (seq 0 T) i)])
                 (range (Z.min (i + 1) (Z.of_nat S)))).
  2:{ intros i qc Hi. apply in_range in Hi. destruct Hi as [m [Hm ->]].
      apply for_each_emit. intros j qc' Hj.
      replace (Z.min (Z.of_nat m + 1) (Z.of_nat S))
        with (Z.of_nat (Nat.min (m + 1) S)) in Hj by lia.
      apply in_range in Hj. destruct Hj as [n [Hn ->]].
      rewrite float_div_pow2_ok by lia. reflexivity. }
  cbn [bind]. unfold to_gate. cbn [qc_qubits qc_data app]. f_equal. f_equal.
  rewrite flat_map_range. unfold spec_phase_adder.
  apply flat_map_ext_in. intros i Hi. apply in_seq in Hi.
  replace (Z.min (Z.of_nat i + 1) (Z.of_nat S))
    with (Z.of_nat (Nat.min (i + 1) S)) by lia.
  rewrite flat_map_range, flat_map_singleton.
  apply map_ext_in. intros j Hj. apply in_seq in Hj.
  rewrite !qubit_at_seq by lia. rewrite angle_nat by lia. reflexivity.
Qed.

Lemma AdderPhaseGate_overflow (T S : nat) :
  (1024 <= T)%nat -> (1 <= S)%nat ->
  AdderPhaseGate (Z.of_nat T) (Z.of_nat S) = Raise OverflowError.
Proof.
  intros HT HS. unfold AdderPhaseGate, QuantumRegister.
  destruct (Z.ltb_spec (Z.of_nat T) 0) as [? | _]; [lia |].
  destruct (Z.ltb_spec (Z.of_nat S) 0) as [? | _]; [lia |].
  cbn [bind add_register new_circuit qc_qubits qc_data].
  rewrite (@for_each_raise _ _ OverflowError); [reflexivity | |].
  - intros i qc Hi. apply in_range in Hi. destruct Hi as [m [Hm ->]].
    apply for_each_ok_or_raise. intros j qc' Hj.
    replace (Z.min (Z.of_nat m + 1) (Z.of_nat S))
      with (Z.of_nat (Nat.min (m + 1) S)) in Hj by lia.
    apply in_range in Hj. destruct Hj as [n [Hn ->]].
    destruct (float_div_pow2_cases (2 * PI) (e := 1 + Z.of_nat m - Z.of_nat n))
      as [-> | ->]; [lia | now left | right; eexists; reflexivity].
  - exists (Z.of_nat 1023). split; [apply in_range; exists 1023%nat; lia |].
    intro qc. apply for_each_raise.
    + intros j qc' Hj.
      replace (Z.min (Z.of_nat 1023 + 1) (Z.of_nat S))
        with (Z.of_nat (Nat.min 1024 S)) in Hj by lia.
      apply in_range in Hj. destruct Hj as [n [Hn ->]].
      destruct (float_div_pow2_cases (2 * PI) (e := 1 + Z.of_nat 1023 - Z.of_nat n))
        as [-> | ->]; [lia | now left | right; eexists; reflexivity].
    + exists (Z.of_nat 0). split.
      * replace (Z.min (Z.of_nat 1023 + 1) (Z.of_nat S))
          with (Z.of_nat (Nat.min 1024 S)) by lia.
        apply in_range. exists 0%nat. lia.
      * intro qc'. rewrite float_div_pow2_overflow by lia. reflexivity.
Qed.

(** ** The bit list of [ClassicalAdderPhaseGate] *)

Lemma rev_bin_digits (p : positive) (acc : list ascii) :
  rev (bin_digits p acc) = rev acc ++ map bit_char (pos_bits p).
Proof.
  revert acc. induction p as [p IH | p IH |]; intro acc; simpl.
  - rewrite IH. simpl. now rewrite <- app_assoc.
  - rewrite IH. simpl. now rewrite <- app_assoc.
  - reflexivity.
Qed.

Lemma mapM_app {A B : Type} (f : A -> result B) (l1 l2 : list A) :
  mapM f (l1 ++ l2)
  = (bs1 <- mapM f l1 ;; bs2 <- mapM f l2 ;; Ok (bs1 ++ bs2)).
Proof.
  induction l1 as [| a l1 IH]; simpl.
  - now destruct (mapM f l2).
  - destruct (f a); simpl; [| reflexivity]. rewrite IH.
    destruct (mapM f l1); simpl; [| reflexivity].
    now destruct (mapM f l2).
Qed.

Lemma mapM_pos_bits (p : positive) :
  mapM int_of_char (map bit_char (pos_bits p)) = Ok (pos_bits p).
Proof.
  induction p as [p IH | p IH |]; simpl; try rewrite IH; reflexivity.
Qed.

Lemma source_bits_nonneg (k : Z) :
  (0 <= k)%Z ->
  mapM int_of_char (slice_last_to_2 (bin k)) = Ok (lsb_bits k).
Proof.
  intros Hk. destruct k as [| p | p]; [reflexivity | | lia].
  unfold slice_last_to_2, bin. cbn [skipn].
  rewrite rev_bin_digits. apply mapM_pos_bits.
Qed.

Lemma source_bits_negative (k : Z) :
  (k < 0)%Z ->
  mapM int_of_char (slice_last_to_2 (bin k)) = Raise ValueError.
Proof.
  intros Hk. destruct k as [| p | p]; [lia | lia |].
  unfold slice_last_to_2, bin. cbn [skipn rev].
  rewrite rev_bin_digits, mapM_app. cbn [rev app].
  now rewrite mapM_pos_bits.
Qed.

Lemma length_pos_bits (p : positive) :
  length (pos_bits p) = Z.to_nat (Z.log2 (Zpos p) + 1).
Proof.
  induction p as [p IH | p IH |]; [| | reflexivity].
  - cbn [pos_bits length]. rewrite IH.
    change (Zpos p~1) with (2 * Zpos p + 1)%Z.
    rewrite Z.log2_succ_double by lia.
    pose proof (Z.log2_nonneg (Zpos p)). lia.
  - cbn [pos_bits length]. rewrite IH.
    change (Zpos p~0) with (2 * Zpos p)%Z.
    rewrite Z.log2_double by lia.
    pose proof (Z.log2_nonneg (Zpos p)). lia.
Qed.

Lemma length_lsb_bits (k : Z) :
  (0 <= k)%Z -> length (lsb_bits k) = bit_length k.
Proof.
  intros Hk. destruct k as [| p | p]; [reflexivity | | lia].
  unfold bit_length, lsb_bits.
  destruct (Z.eqb_spec (Zpos p) 0) as [E | _]; [discriminate E |].
  apply length_pos_bits.
Qed.

Lemma nth_pos_bits (p : positive) (j : nat) :
  (nth j (pos_bits p) 0 =? 1)%Z = Z.testbit (Zpos p) (Z.of_nat j).
Proof.
  revert j. induction p as [p IH | p IH |]; intro j.
  - change (Zpos p~1) with (2 * Zpos p + 1)%Z.
    destruct j as [| j]; cbn [pos_bits nth].
    + now rewrite Z.testbit_odd_0.
    + rewrite Nat2Z.inj_succ, Z.testbit_odd_succ by lia. apply IH.
  - change (Zpos p~0) with (2 * Zpos p)%Z.
    destruct j as [| j]; cbn [pos_bits nth].
    + now rewrite Z.testbit_even_0.
    + rewrite Nat2Z.inj_succ, Z.testbit_even_succ by lia. apply IH.
  - destruct j as [| j]; [reflexivity |].
    cbn [pos_bits nth]. now destruct j.
Qed.


(** ** What [ClassicalAdderPhaseGate] builds *)

Lemma nth_lsb_bits (k : Z) (j : nat) :
  (0 <= k)%Z ->
  (nth j (lsb_bits k) 0 =? 1)%Z = Z.testbit k (Z.of_nat j).
Proof.
  intros Hk. destruct k as [| q | q]; [| apply nth_pos_bits | lia].
  rewrite Z.testbit_0_l. now destruct j as [| [| j]].
Qed.

Lemma testbit_above_bit_length (k : Z) (j : nat) :
  (0 <= k)%Z -> (bit_length k <= j)%nat -> Z.testbit k (Z.of_nat j) = false.
Proof.
  intros Hk Hj. unfold bit_length in Hj.
  destruct (Z.eqb_spec k 0) as [-> | Hne]; [apply Z.testbit_0_l |].
  apply Z.bits_above_log2; [assumption |].
  pose proof (Z.log2_nonneg k). lia.
Qed.

Lemma phase_overflows_false (T : nat) (k : Z) (j : nat) :
  phase_overflows T k = false ->
  Z.testbit k (Z.of_nat j) = true -> (T <= j + 1023)%nat.
Proof.
  intros Hno Hbit. destruct (Nat.le_gt_cases T (j + 1023)) as [H | H]; [exact H |].
  exfalso. unfold phase_overflows in Hno.
  assert (Hex : existsb
                  (fun j => Z.testbit k (Z.of_nat j) && (j + 1024 <=? T)%nat)
                  (seq 0 T) = true).
  { apply existsb_exists. exists j. split; [apply in_seq; lia |].
    rewrite Hbit. apply Nat.leb_le. lia. }
  congruence.
Qed.

Lemma phase_overflows_true (T : nat) (k : Z) :
  phase_overflows T k = true ->
  exists j : nat, (j + 1024 <= T)%nat /\ Z.testbit k (Z.of_nat j) = true.
Proof.
  unfold phase_overflows. intros Hex. apply existsb_exists in Hex.
  destruct Hex as [j [_ Hj]]. apply andb_true_iff in Hj.
  destruct Hj as [Hbit Hle]. apply Nat.leb_le in Hle. now exists j.
Qed.

Lemma phase_overflows_small (T : nat) (k : Z) :
  (T <= 1023)%nat -> phase_overflows T k = false.
Proof.
  intros HT. destruct (phase_overflows T k) eqn:E; [| reflexivity].
  apply phase_overflows_true in E. destruct E as [j [Hj _]]. lia.
Qed.

Lemma phase_overflows_zero (T : nat) : phase_overflows T 0 = false.
Proof.
  destruct (phase_overflows T 0) eqn:E; [| reflexivity].
  apply phase_overflows_true in E. destruct E as [j [_ Hj]].
  now rewrite Z.testbit_0_l in Hj.
Qed.

Lemma ClassicalAdderPhaseGate_eq (T : nat) (k : Z) :
  (0 <= k)%Z -> phase_overflows T k = false ->
  ClassicalAdderPhaseGate (Z.of_nat T) k
  = Ok (mkGate T (spec_classical_phase_adder T k)).
Proof.
  intros Hk Hno. unfold ClassicalAdderPhaseGate.
  rewrite source_bits_nonneg by assumption. cbn [bind].
  unfold QuantumRegister.
  destruct (Z.ltb_spec (Z.of_nat T) 0) as [? | _]; [lia |].
  cbn [bind add_register new_circuit qc_qubits qc_data]. rewrite !Nat2Z.id.
  rewrite length_lsb_bits by assumption.
  rewrite for_each_emit
    with (F := fun i => flat_map (fun j =>
                 if Z.testbit k j
                 then [P (2 * PI / IZR (2 ^ (1 + i - j))) (qubit_at (seq 0 T) i)]
                 else [])
                 (range (Z.min (i + 1) (Z.of_nat (bit_length k))))).
  2:{ intros i qc Hi. apply in_range in Hi. destruct Hi as [m [Hm ->]].
      apply for_each_emit. intros j qc' Hj.
      replace (Z.min (Z.of_nat m + 1) (Z.of_nat (bit_length k)))
        with (Z.of_nat (Nat.min (m + 1) (bit_length k))) in Hj by lia.
      apply in_range in Hj. destruct Hj as [n [Hn ->]].
      rewrite Nat2Z.id, nth_lsb_bits by assumption.
      destruct (Z.testbit k (Z.of_nat n)) eqn:Eb.
      - pose proof (phase_overflows_false T k n Hno Eb).
        rewrite float_div_pow2_ok by lia. reflexivity.
      - rewrite app_nil_r. now destruct qc'. }
  cbn [bind]. unfold to_gate. cbn [qc_qubits qc_data app]. f_equal. f_equal.
  rewrite flat_map_range. unfold spec_classical_phase_adder.
  apply flat_map_ext_in. intros i Hi. apply in_seq in Hi.
  replace (Z.min (Z.of_nat i + 1) (Z.of_nat (bit_length k)))
    with (Z.of_nat (Nat.min (i + 1) (bit_length k))) by lia.
  rewrite flat_map_range.
  apply flat_map_ext_in. intros j Hj. apply in_seq in Hj.
  destruct (Z.testbit k (Z.of_nat j)); [| reflexivity].
  rewrite qubit_at_seq by lia. rewrite angle_nat by lia. reflexivity.
Qed.

Lemma classical_body_cases (k : Z) (reg : list nat) (m n : nat)
      (qc : QuantumCircuit) :
  (0 <= k)%Z -> (n <= m)%nat ->
  (if (nth (Z.to_nat (Z.of_nat n)) (lsb_bits k) 0 =? 1)%Z
   then theta <- float_div_int (2 * PI) (2 ^ (1 + Z.of_nat m - Z.of_nat n)) ;;
        Ok (p theta (qubit_at reg (Z.of_nat m)) qc)
   else Ok qc) = Raise OverflowError
  \/ exists qc',
       (if (nth (Z.to_nat (Z.of_nat n)) (lsb_bits k) 0 =? 1)%Z
        then theta <- float_div_int (2 * PI) (2 ^ (1 + Z.of_nat m - Z.of_nat n)) ;;
             Ok (p theta (qubit_at reg (Z.of_nat m)) qc)
        else Ok qc) = Ok qc'.
Proof.
  intros Hk Hn. destruct (nth _ _ _ =? 1)%Z; [| right; now exists qc].
  destruct (float_div_pow2_cases (2 * PI) (e := 1 + Z.of_nat m - Z.of_nat n))
    as [-> | ->]; [lia | now left | right; eexists; reflexivity].
Qed.

Lemma ClassicalAdderPhaseGate_overflow (T : nat) (k : Z) :
  (0 <= k)%Z -> phase_overflows T k = true ->
  ClassicalAdderPhaseGate (Z.of_nat T) k = Raise OverflowError.
Proof.
  intros Hk Hov. apply phase_overflows_true in Hov.
  destruct Hov as [j0 [Hj0 Hbit]].
  assert (Hlen : (j0 < bit_length k)%nat).
  { destruct (Nat.lt_ge_cases j0 (bit_length k)) as [H | H]; [exact H |].
    rewrite testbit_above_bit_length in Hbit by assumption. discriminate. }
  unfold ClassicalAdderPhaseGate.
  rewrite source_bits_nonneg by assumption. cbn [bind].
  unfold QuantumRegister.
  destruct (Z.ltb_spec (Z.of_nat T) 0) as [? | _]; [lia |].
  cbn [bind add_register new_circuit qc_qubits qc_data].
  rewrite length_lsb_bits by assumption.
  rewrite (@for_each_raise _ _ OverflowError); [reflexivity | |].
  - intros i qc Hi. apply in_range in Hi. destruct Hi as [m [Hm ->]].
    apply for_each_ok_or_raise. intros j qc' Hj.
    replace (Z.min (Z.of_nat m + 1) (Z.of_nat (bit_length k)))
      with (Z.of_nat (Nat.min (m + 1) (bit_length k))) in Hj by lia.
    apply in_range in Hj. destruct Hj as [n [Hn ->]].
    apply classical_body_cases; [assumption | lia].
  - exists (Z.of_nat (j0 + 1023)).
    split; [apply in_range; exists (j0 + 1023)%nat; lia |].
    intro qc. apply for_each_raise.
    + intros j qc' Hj.
      replace (Z.min (Z.of_nat (j0 + 1023) + 1) (Z.of_nat (bit_length k)))
        with (Z.of_nat (Nat.min (j0 + 1023 + 1) (bit_length k))) in Hj by lia.
      apply in_range in Hj. destruct Hj as [n [Hn ->]].
      apply classical_body_cases; [assumption | lia].
    + exists (Z.of_nat j0). split.
      * replace (Z.min (Z.of_nat (j0 + 1023) + 1) (Z.of_nat (bit_length k)))
          with (Z.of_nat (Nat.min (j0 + 1023 + 1) (bit_length k))) by lia.
        apply in_range. exists j0. lia.
      * intro qc'. rewrite Nat2Z.id, nth_lsb_bits, Hbit by assumption.
        rewrite float_div_pow2_overflow by lia. reflexivity.
Qed.

(** ** Fractions of a turn *)

Lemma pow2_R_neq0 (m : nat) : (2 ^ m <> 0)%R.
Proof. apply pow_nonzero. lra. Qed.

Lemma turn_add (a b m : nat) : turn (a + b) m = (turn a m + turn b m)%R.
Proof.
  unfold turn. rewrite plus_INR. field. apply pow2_R_neq0.
Qed.

Lemma turn_0 (m : nat) : turn 0 m = 0%R.
Proof. unfold turn. simpl. field. apply pow2_R_neq0. Qed.

Lemma turn_full (q m : nat) : turn (q * 2 ^ m) m = (2 * INR q * PI)%R.
Proof.
  unfold turn. rewrite mult_INR, pow_INR. simpl INR.
  replace (1 + 1)%R with 2%R by ring. field. apply pow2_R_neq0.
Qed.

Lemma turn_pow2 (j n : nat) :
  (j <= n)%nat -> turn (2 ^ j) (n + 1) = (2 * PI / 2 ^ (1 + n - j))%R.
Proof.
  intros Hj. unfold turn. rewrite pow_INR. simpl INR.
  replace (1 + 1)%R with 2%R by ring.
  replace (n + 1)%nat with (j + (1 + n - j))%nat by lia.
  rewrite pow_add. field. split; apply pow2_R_neq0.
Qed.

Lemma Cexp_turn_mod (a m : nat) :
  Cexp (turn (a mod 2 ^ m) m) = Cexp (turn a m).
Proof.
  rewrite (Nat.div_mod_eq a (2 ^ m)) at 2.
  rewrite Nat.add_comm, turn_add, (Nat.mul_comm (2 ^ m)), turn_full.
  now rewrite Cexp_add, Cexp_2PI_nat, Cmul_1_r.
Qed.

Lemma Cexp_turn_congr (a b m : nat) :
  a mod 2 ^ m = b mod 2 ^ m -> Cexp (turn a m) = Cexp (turn b m).
Proof.
  intros E. now rewrite <- (Cexp_turn_mod a), <- (Cexp_turn_mod b), E.
Qed.

Lemma mod_pow2_succ (a m : nat) :
  a mod 2 ^ (m + 1)
  = (a mod 2 ^ m + (if Nat.testbit a m then 2 ^ m else 0))%nat.
Proof.
  assert (E : a mod 2 ^ (m + 1) = (a mod 2 ^ m + 2 ^ m * ((a / 2 ^ m) mod 2))%nat).
  { rewrite Nat.pow_add_r. simpl (2 ^ 1)%nat.
    rewrite Nat.Div0.mod_mul_r. reflexivity. }
  rewrite E, <- Nat.testbit_spec'.
  destruct (Nat.testbit a m); simpl; lia.
Qed.

(** The angles one row of either phase adder accumulates on target [i]
    from the bits [0 .. m-1] of the addend [a]. *)
Lemma row_angle (a i m : nat) :
  (m <= i + 1)%nat ->
  rsum (map (fun j => if Nat.testbit a j
                      then (2 * PI / 2 ^ (1 + i - j))%R else 0%R) (seq 0 m))
  = turn (a mod 2 ^ m) (i + 1).
Proof.
  induction m as [| m IH]; intro Hm.
  - cbn [seq map rsum fold_right]. change (2 ^ 0)%nat with 1%nat.
    rewrite Nat.mod_1_r. now rewrite turn_0.
  - rewrite seq_S, map_app. unfold rsum in *. rewrite fold_right_app.
    cbn [map fold_right]. change (0 + m)%nat with m.
    replace (S m) with (m + 1)%nat by lia. rewrite mod_pow2_succ, turn_add.
    assert (G : forall (l : list R) (r : R),
               fold_right Rplus r l = (fold_right Rplus 0 l + r)%R).
    { induction l as [| x l IHl]; intro r; simpl; [ring |].
      rewrite IHl. ring. }
    rewrite G, IH by lia. f_equal.
    destruct (Nat.testbit a m).
    + rewrite turn_pow2 by lia. ring.
    + rewrite turn_0. ring.
Qed.

Lemma Cexp_row (a i L : nat) :
  (a < 2 ^ L)%nat ->
  Cexp (turn (a mod 2 ^ Nat.min (i + 1) L) (i + 1)) = Cexp (turn a (i + 1)).
Proof.
  intros Ha. destruct (Nat.le_gt_cases (i + 1) L) as [Hle | Hgt].
  - rewrite Nat.min_l by assumption. apply Cexp_turn_mod.
  - rewrite Nat.min_r by lia. now rewrite Nat.mod_small.
Qed.

(** ** Diagonal circuits *)

Lemma rsum_app (l1 l2 : list R) : rsum (l1 ++ l2) = (rsum l1 + rsum l2)%R.
Proof.
  unfold rsum. induction l1 as [| x l1 IH]; simpl; [ring |].
  rewrite IH. ring.
Qed.

Lemma total_phase_app (c d : list instr) (y : nat) :
  total_phase (c ++ d) y = (total_phase c y + total_phase d y)%R.
Proof. unfold total_phase. now rewrite map_app, rsum_app. Qed.

Lemma apply_diagonal (g : instr) (phi : state) :
  diagonal g ->
  apply g phi = fun y => Cmul (Cexp (instr_phase g y)) (phi y).
Proof.
  intros Hg. extensionality y.
  destruct g as [q | theta q | theta c t | a b | ]; cbn [apply instr_phase];
    try contradiction.
  - destruct (Nat.testbit y q); [reflexivity |].
    now rewrite Cexp_0, Cmul_1_l.
  - destruct (Nat.testbit y c && Nat.testbit y t); [reflexivity |].
    now rewrite Cexp_0, Cmul_1_l.
  - now rewrite Cexp_0, Cmul_1_l.
Qed.

Lemma run_diagonal (c : list instr) (phi : state) :
  Forall diagonal c ->
  run c phi = fun y => Cmul (Cexp (total_phase c y)) (phi y).
Proof.
  intros Hc. revert phi.
  induction Hc as [| g c Hg Hc IH]; intro phi.
  - extensionality y. unfold total_phase. simpl.
    now rewrite Cexp_0, Cmul_1_l.
  - change (run (g :: c) phi) with (run c (apply g phi)).
    rewrite IH, apply_diagonal by assumption.
    extensionality y.
    change (g :: c) with ([g] ++ c). rewrite total_phase_app.
    replace (total_phase [g] y) with (instr_phase g y)
      by (unfold total_phase, rsum; simpl; ring).
    rewrite Rplus_comm, Cexp_add. now rewrite Cmul_assoc.
Qed.

(** ** The phase adders are diagonal, with the Fourier kicks of the addend *)

Lemma total_phase_flat_map {A : Type} (F : A -> list instr) (l : list A) (y : nat) :
  total_phase (flat_map F l) y = rsum (map (fun x => total_phase (F x) y) l).
Proof.
  induction l as [| x l IH]; [reflexivity |].
  cbn [flat_map map]. rewrite total_phase_app, IH. reflexivity.
Qed.

Lemma Cexp_rsum (f : nat -> R) (l : list nat) :
  Cexp (rsum (map f l)) = big_mul l (fun i => Cexp (f i)).
Proof.
  induction l as [| i l IH]; [apply Cexp_0 |].
  cbn [map big_mul]. rewrite <- IH, <- Cexp_add. reflexivity.
Qed.

Lemma big_mul_ext (l : list nat) (f g : nat -> C) :
  (forall i, In i l -> f i = g i) -> big_mul l f = big_mul l g.
Proof.
  induction l as [| i l IH]; intro E; [reflexivity |].
  cbn [big_mul]. rewrite E by now left. f_equal. apply IH.
  intros; apply E; now right.
Qed.

Lemma big_mul_mul (l : list nat) (f g : nat -> C) :
  big_mul l (fun i => Cmul (f i) (g i)) = Cmul (big_mul l f) (big_mul l g).
Proof.
  induction l as [| i l IH]; cbn [big_mul]; [now rewrite Cmul_1_l |].
  rewrite IH. generalize (f i), (g i), (big_mul l f), (big_mul l g).
  intros. cring.
Qed.

Lemma Forall_flat_map {A B : Type} (Q : B -> Prop) (F : A -> list B) (l : list A) :
  (forall x, In x l -> Forall Q (F x)) -> Forall Q (flat_map F l).
Proof.
  induction l as [| x l IH]; intro HF; cbn [flat_map]; [constructor |].
  apply Forall_app. split; [apply HF; now left |].
  apply IH. intros; apply HF; now right.
Qed.

Lemma testbit_Z_nat (k : Z) (j : nat) :
  (0 <= k)%Z -> Z.testbit k (Z.of_nat j) = Nat.testbit (Z.to_nat k) j.
Proof.
  intros Hk.
  assert (E : Z.b2z (Z.testbit k (Z.of_nat j))
              = Z.of_nat (Nat.b2n (Nat.testbit (Z.to_nat k) j))).
  { rewrite Z.testbit_spec', Nat.testbit_spec' by lia.
    rewrite Nat2Z.inj_mod, Nat2Z.inj_div, Nat2Z.inj_pow, Z2Nat.id by lia.
    reflexivity. }
  destruct (Z.testbit k (Z.of_nat j)), (Nat.testbit (Z.to_nat k) j);
    simpl in E; congruence || lia.
Qed.

Lemma lt_bit_length (k : Z) :
  (0 <= k)%Z -> (Z.to_nat k < 2 ^ bit_length k)%nat.
Proof.
  intros Hk. unfold bit_length.
  destruct (Z.eqb_spec k 0) as [-> | Hne]; [simpl; lia |].
  pose proof (Z.log2_spec k ltac:(lia)) as [_ Hlt].
  pose proof (Z.log2_nonneg k) as Hl.
  apply Nat2Z.inj_lt. rewrite Nat2Z.inj_pow, !Z2Nat.id by lia.
  replace (Z.log2 k + 1)%Z with (Z.succ (Z.log2 k)) by lia. exact Hlt.
Qed.

Lemma total_phase_row_p (b : nat -> bool) (theta : nat -> R) (i : nat)
      (js : list nat) (y : nat) :
  total_phase (flat_map (fun j => if b j then [P (theta j) i] else []) js) y
  = if Nat.testbit y i
    then rsum (map (fun j => if b j then theta j else 0%R) js)
    else 0%R.
Proof.
  induction js as [| j js IH].
  - now destruct (Nat.testbit y i).
  - cbn [flat_map map]. rewrite total_phase_app, IH.
    unfold rsum at 2. cbn [fold_right]. fold (rsum (map (fun j0 => if b j0 then theta j0 else 0%R) js)).
    destruct (b j); unfold total_phase, rsum; cbn [map fold_right instr_phase];
      destruct (Nat.testbit y i); ring.
Qed.

Lemma total_phase_row_cp (ctl : nat -> nat) (theta : nat -> R) (i : nat)
      (js : list nat) (y : nat) :
  total_phase (map (fun j => CP (theta j) (ctl j) i) js) y
  = if Nat.testbit y i
    then rsum (map (fun j => if Nat.testbit y (ctl j) then theta j else 0%R) js)
    else 0%R.
Proof.
  induction js as [| j js IH].
  - now destruct (Nat.testbit y i).
  - change (map (fun j0 => CP (theta j0) (ctl j0) i) (j :: js))
      with ([CP (theta j) (ctl j) i] ++ map (fun j0 => CP (theta j0) (ctl j0) i) js).
    rewrite total_phase_app, IH.
    unfold total_phase, rsum; cbn [map fold_right instr_phase].
    destruct (Nat.testbit y (ctl j)), (Nat.testbit y i); cbn [andb]; ring.
Qed.

Lemma run_spec_classical (T : nat) (k : Z) (phi : state) :
  (0 <= k)%Z ->
  run (spec_classical_phase_adder T k) phi
  = fun y => Cmul (diag_phase 0 T (Z.to_nat k) y) (phi y).
Proof.
  intros Hk. rewrite run_diagonal.
  2:{ apply Forall_flat_map. intros i _. apply Forall_flat_map. intros j _.
      destruct (Z.testbit k (Z.of_nat j)); repeat constructor. }
  extensionality y. f_equal.
  unfold spec_classical_phase_adder, diag_phase.
  rewrite total_phase_flat_map, Cexp_rsum.
  apply big_mul_ext. intros i _. rewrite total_phase_row_p. unfold kick.
  destruct (Nat.testbit y i); [| apply Cexp_0].
  rewrite (map_ext _ (fun j => if Nat.testbit (Z.to_nat k) j
                               then (2 * PI / 2 ^ (1 + i - j))%R else 0%R)).
  2:{ intro j. now rewrite testbit_Z_nat. }
  rewrite row_angle by lia. apply Cexp_row. now apply lt_bit_length.
Qed.

Lemma summand_value_lt (T S y : nat) : (summand_value T S y < 2 ^ S)%nat.
Proof.
  unfold summand_value. apply Nat.mod_upper_bound. apply Nat.pow_nonzero. lia.
Qed.

Lemma testbit_summand_value (T S y j : nat) :
  (j < S)%nat -> Nat.testbit (summand_value T S y) j = Nat.testbit y (T + j).
Proof.
  intros Hj. unfold summand_value.
  rewrite Nat.mod_pow2_bits_low by assumption.
  rewrite Nat.div_pow2_bits. f_equal. lia.
Qed.

Lemma run_spec_phase_adder (T S : nat) (phi : state) :
  run (spec_phase_adder T S) phi
  = fun y => Cmul (diag_phase 0 T (summand_value T S y) y) (phi y).
Proof.
  rewrite run_diagonal.
  2:{ apply Forall_flat_map. intros i _. apply Forall_forall.
      intros g Hg. apply in_map_iff in Hg. destruct Hg as [j [<- _]]. exact I. }
  extensionality y. f_equal.
  unfold spec_phase_adder, diag_phase.
  rewrite total_phase_flat_map, Cexp_rsum.
  apply big_mul_ext. intros i _.
  rewrite (total_phase_row_cp (fun j => (T + j)%nat)
             (fun j => (2 * PI / 2 ^ (1 + i - j))%R)).
  unfold kick.
  destruct (Nat.testbit y i); [| apply Cexp_0].
  rewrite (map_ext_in _ (fun j => if Nat.testbit (summand_value T S y) j
                                  then (2 * PI / 2 ^ (1 + i - j))%R else 0%R)).
  2:{ intros j Hj. apply in_seq in Hj. rewrite testbit_summand_value by lia.
      reflexivity. }
  rewrite row_angle by lia. apply Cexp_row. apply summand_value_lt.
Qed.

(** ** Labels that agree outside a window of qubits *)

Lemma mod_pow2_eq_iff (a b n : nat) :
  a mod 2 ^ n = b mod 2 ^ n
  <-> (forall m, (m < n)%nat -> Nat.testbit a m = Nat.testbit b m).
Proof.
  split.
  - intros E m Hm.
    rewrite <- (Nat.mod_pow2_bits_low a n m), <- (Nat.mod_pow2_bits_low b n m)
      by assumption.
    now rewrite E.
  - intros E. apply Nat.bits_inj. intro m.
    destruct (Nat.lt_ge_cases m n) as [Hm | Hm].
    + rewrite !Nat.mod_pow2_bits_low by assumption. now apply E.
    + now rewrite !Nat.mod_pow2_bits_high by assumption.
Qed.

Lemma div_pow2_eq_iff (a b n : nat) :
  a / 2 ^ n = b / 2 ^ n
  <-> (forall m, (n <= m)%nat -> Nat.testbit a m = Nat.testbit b m).
Proof.
  split.
  - intros E m Hm. replace m with ((m - n) + n)%nat by lia.
    rewrite <- !Nat.div_pow2_bits. now rewrite E.
  - intros E. apply Nat.bits_inj. intro m.
    rewrite !Nat.div_pow2_bits. apply E. lia.
Qed.

Lemma agree_outside_spec (j T z y : nat) :
  agree_outside j T z y = true
  <-> (forall m, (m < j \/ T <= m)%nat -> Nat.testbit y m = Nat.testbit z m).
Proof.
  unfold agree_outside.
  rewrite andb_true_iff, !Nat.eqb_eq, mod_pow2_eq_iff, div_pow2_eq_iff.
  split.
  - intros [Hlo Hhi] m [Hm | Hm]; auto.
  - intros E. split; intros m Hm; apply E; auto.
Qed.

Lemma agree_outside_set_bit (q T z y : nat) (b : bool) :
  (q < T)%nat ->
  agree_outside (q + 1) T z (set_bit y q b)
  = agree_outside q T z y && Bool.eqb b (Nat.testbit z q).
Proof.
  intros Hq. apply eq_true_iff_eq.
  rewrite andb_true_iff, eqb_true_iff, !agree_outside_spec. split.
  - intros E. split.
    + intros m Hm. specialize (E m ltac:(lia)).
      rewrite testbit_set_bit in E.
      destruct (Nat.eqb_spec q m); [lia | exact E].
    + specialize (E q ltac:(lia)).
      now rewrite testbit_set_bit, Nat.eqb_refl in E.
  - intros [E Eb] m Hm. rewrite testbit_set_bit.
    destruct (Nat.eqb_spec q m) as [<- | Hne]; [exact Eb |].
    apply E. lia.
Qed.

Lemma agree_outside_full (T z y : nat) :
  agree_outside T T z y = (y =? z)%nat.
Proof.
  apply eq_true_iff_eq. rewrite agree_outside_spec, Nat.eqb_eq. split.
  - intros E. apply Nat.bits_inj. intro m. apply E. lia.
  - intros -> m _. reflexivity.
Qed.

Lemma diag_phase_set_bit (lo len a y q : nat) (b : bool) :
  (q < lo)%nat ->
  diag_phase lo len a (set_bit y q b) = diag_phase lo len a y.
Proof.
  intros Hq. unfold diag_phase. apply big_mul_ext. intros i Hi.
  apply in_seq in Hi. unfold kick. rewrite testbit_set_bit.
  destruct (Nat.eqb_spec q i); [lia | reflexivity].
Qed.

Lemma mod_pow2_le (a m n : nat) :
  (m <= n)%nat -> (a mod 2 ^ m <= a mod 2 ^ n)%nat.
Proof.
  induction 1 as [| n Hmn IH]; [lia |].
  replace (S n) with (n + 1)%nat by lia. rewrite (mod_pow2_succ a n). lia.
Qed.

(** ** The swap-free transform of a basis state *)

Lemma ket_is_stage (T z : nat) : ket z = qft_stage T T z.
Proof.
  extensionality y. unfold ket, qft_stage.
  rewrite agree_outside_full, Nat.sub_diag.
  destruct (y =? z)%nat; [| reflexivity].
  unfold diag_phase. cbn [seq big_mul pow]. cring.
Qed.

Lemma inner_is_stage (T q z : nat) :
  (q < T)%nat -> qft_inner T q 0 z = qft_stage T q z.
Proof.
  intros Hq. extensionality y. unfold qft_inner, qft_stage.
  destruct (agree_outside q T z y); [| reflexivity].
  f_equal. unfold diag_phase.
  replace (T - q)%nat with (S (T - q - 1)) at 2 by lia.
  cbn [seq big_mul]. replace (S q) with (q + 1)%nat by lia.
  f_equal. unfold kick.
  destruct (Nat.testbit y q); [| reflexivity].
  change (2 ^ 0)%nat with 1%nat. rewrite Nat.mod_1_r, Nat.sub_0_r.
  apply Cexp_turn_mod.
Qed.

Lemma Cexp_half_turn (q : nat) : Cexp (turn (2 ^ q) (q + 1)) = Copp C1.
Proof.
  rewrite turn_pow2 by lia. replace (1 + q - q)%nat with 1%nat by lia.
  replace (2 * PI / 2 ^ 1)%R with PI by (simpl; field). apply Cexp_PI.
Qed.

Lemma hadamard_step (T q z : nat) :
  (q < T)%nat ->
  apply (H q) (qft_stage T (q + 1) z) = qft_inner T q q z.
Proof.
  intros Hq. extensionality y. cbn [apply]. unfold qft_stage, qft_inner.
  rewrite !agree_outside_set_bit by assumption.
  rewrite !diag_phase_set_bit by lia.
  replace (T - (q + 1))%nat with (T - q - 1)%nat by lia.
  remember (T - q - 1)%nat as n eqn:En.
  replace (T - q)%nat with (S n) by lia.
  rewrite (mod_pow2_succ z q).
  replace (z mod 2 ^ q + (if Nat.testbit z q then 2 ^ q else 0) - z mod 2 ^ q)%nat
    with (if Nat.testbit z q then 2 ^ q else 0)%nat by lia.
  generalize (diag_phase (q + 1) n z y). intros d.
  destruct (agree_outside q T z y); cbn [andb].
  - destruct (Nat.testbit z q); cbn [Bool.eqb];
      [rewrite Cexp_half_turn | rewrite turn_0, Cexp_0];
      destruct (Nat.testbit y q); destruct d as [d1 d2];
      unfold Cscale, Cadd, Copp, Cmul, C0, C1; cbn [fst snd pow];
      apply injective_projections; cbn [fst snd]; ring.
  - destruct (Nat.testbit y q);
      unfold Cscale, Cadd, Copp, C0; cbn [fst snd];
      apply injective_projections; cbn [fst snd]; ring.
Qed.

Lemma cphase_step (T q k z : nat) :
  (k < q)%nat -> (q < T)%nat ->
  apply (CP (PI / 2 ^ (q - k)) q k) (qft_inner T q (k + 1) z)
  = qft_inner T q k z.
Proof.
  intros Hk Hq. extensionality y. cbn [apply]. unfold qft_inner.
  destruct (agree_outside q T z y) eqn:Ea.
  2:{ destruct (Nat.testbit y q && Nat.testbit y k); [apply Cmul_0_r | reflexivity]. }
  assert (Ek : Nat.testbit y k = Nat.testbit z k).
  { apply (proj1 (agree_outside_spec q T z y) Ea). lia. }
  rewrite Ek.
  pose proof (mod_pow2_le z (m := k + 1) (n := q + 1) ltac:(lia)) as Hle.
  replace (z mod 2 ^ (q + 1) - z mod 2 ^ k)%nat
    with ((z mod 2 ^ (q + 1) - z mod 2 ^ (k + 1))
          + (if Nat.testbit z k then 2 ^ k else 0))%nat
    by (rewrite (mod_pow2_succ z k) in *; lia).
  rewrite turn_add, Cexp_add.
  generalize (Cexp (turn (z mod 2 ^ (q + 1) - z mod 2 ^ (k + 1)) (q + 1))).
  generalize (diag_phase (q + 1) (T - q - 1) z y).
  generalize ((/ sqrt 2) ^ (T - q))%R. intros r d e.
  destruct (Nat.testbit y q), (Nat.testbit z k); cbn [andb];
    try reflexivity.
  - rewrite turn_pow2 by lia.
    replace (2 * PI / 2 ^ (1 + q - k))%R with (PI / 2 ^ (q - k))%R.
    2:{ replace (1 + q - k)%nat with (S (q - k)) by lia. simpl.
        field. apply pow2_R_neq0. }
    generalize (Cexp (PI / 2 ^ (q - k))). intros c.
    destruct d, e, c. cring.
  - rewrite turn_0, Cexp_0, Cmul_1_r. reflexivity.
Qed.

Lemma run_qft_row_tail (T q k0 z : nat) :
  (k0 <= q)%nat -> (q < T)%nat ->
  run (map (fun k => CP (PI / 2 ^ (q - k)) q k) (rev (seq 0 k0)))
      (qft_inner T q k0 z)
  = qft_inner T q 0 z.
Proof.
  intros Hk Hq. induction k0 as [| k0 IH]; [reflexivity |].
  rewrite seq_S, rev_app_distr. cbn [rev app map Nat.add].
  change (run (?g :: ?c) ?s) with (run c (apply g s)).
  replace (S k0) with (k0 + 1)%nat by lia.
  rewrite cphase_step by lia. apply IH. lia.
Qed.

Lemma run_qft_row (T q z : nat) :
  (q < T)%nat ->
  run (qft_row q) (qft_stage T (q + 1) z) = qft_stage T q z.
Proof.
  intros Hq. unfold qft_row.
  change (run (?g :: ?c) ?s) with (run c (apply g s)).
  rewrite hadamard_step, run_qft_row_tail by lia.
  now apply inner_is_stage.
Qed.

Lemma run_qft_rows (T j z : nat) :
  (j <= T)%nat ->
  run (flat_map qft_row (rev (seq 0 j))) (qft_stage T j z) = fourier T z.
Proof.
  intros Hj. induction j as [| j IH]; [reflexivity |].
  rewrite seq_S, rev_app_distr. cbn [rev app flat_map Nat.add].
  rewrite run_app. replace (S j) with (j + 1)%nat by lia.
  rewrite run_qft_row by lia. apply IH. lia.
Qed.

Lemma run_qft_circuit_ket (T z : nat) :
  run (qft_circuit T) (ket z) = fourier T z.
Proof.
  rewrite (ket_is_stage T z). now apply run_qft_rows.
Qed.

Lemma run_inverse_qft_fourier (T z : nat) :
  run (inverse_circuit (qft_circuit T)) (fourier T z) = ket z.
Proof.
  rewrite <- run_qft_circuit_ket. apply run_inverse_circuit.
Qed.

(** ** The library transform as used by the adders *)

Lemma flat_map_map {A B D : Type} (f : A -> B) (g : B -> list D) (l : list A) :
  flat_map g (map f l) = flat_map (fun a => g (f a)) l.
Proof. induction l as [| a l IH]; simpl; congruence. Qed.

Lemma qft_angle (j k : nat) :
  (k <= j)%nat ->
  (PI * powerRZ 2 (Z.of_nat k - Z.of_nat j) = PI / 2 ^ (j - k))%R.
Proof.
  intros Hk.
  replace (Z.of_nat k - Z.of_nat j)%Z with (- Z.of_nat (j - k))%Z by lia.
  rewrite powerRZ_neg', <- pow_powerRZ. reflexivity.
Qed.

Lemma QFT_swap_free (T : nat) :
  QFT (Z.of_nat T) 0 false false false = qft_circuit T.
Proof.
  unfold QFT, QFT_body, qft_circuit. rewrite app_nil_r.
  unfold range. rewrite Nat2Z.id, <- map_rev, flat_map_map.
  apply flat_map_ext_in. intros j Hj. apply in_rev, in_seq in Hj.
  rewrite app_nil_r, Nat2Z.id. unfold qft_row. f_equal.
  replace (Z.max 0 (Z.of_nat j - Z.max 0 (0 - (Z.of_nat T - Z.of_nat j - 1))))
    with (Z.of_nat j) by lia.
  unfold range2.
  replace (Z.of_nat j - (Z.of_nat j - Z.of_nat j))%Z with (Z.of_nat j) by lia.
  rewrite Nat2Z.id, <- map_rev, map_map.
  apply map_ext_in. intros k Hk. apply in_rev, in_seq in Hk.
  replace (Z.of_nat j - Z.of_nat j + Z.of_nat k)%Z with (Z.of_nat k) by lia.
  rewrite Nat2Z.id, qft_angle by lia. reflexivity.
Qed.

(** ** Placing a gate on the qubits it was built for *)

Lemma relabel_seq (n : nat) (g : instr) :
  fits n g -> relabel (seq 0 n) g = g.
Proof.
  destruct g as [q | theta q | theta c t | a b | ]; cbn [fits relabel];
    intros Hg.
  - now rewrite seq_nth.
  - now rewrite seq_nth.
  - destruct Hg. now rewrite !seq_nth.
  - destruct Hg. now rewrite !seq_nth.
  - reflexivity.
Qed.

Lemma map_relabel_seq (n : nat) (c : list instr) :
  Forall (fits n) c -> map (relabel (seq 0 n)) c = c.
Proof.
  induction 1 as [| g c Hg Hc IH]; [reflexivity |].
  cbn [map]. now rewrite relabel_seq, IH.
Qed.

Lemma fits_mono (n m : nat) (g : instr) :
  (n <= m)%nat -> fits n g -> fits m g.
Proof. destruct g; cbn [fits]; lia. Qed.

Lemma fits_inverse_circuit (n : nat) (c : list instr) :
  Forall (fits n) c -> Forall (fits n) (inverse_circuit c).
Proof.
  intros Hc. unfold inverse_circuit. apply Forall_rev.
  apply Forall_map. eapply Forall_impl; [| exact Hc].
  intros g. now destruct g.
Qed.

Lemma fits_qft_circuit (T : nat) : Forall (fits T) (qft_circuit T).
Proof.
  apply Forall_flat_map. intros j Hj. apply in_rev, in_seq in Hj.
  unfold qft_row. constructor; [cbn [fits]; lia |].
  apply Forall_map, Forall_forall. intros k Hk.
  apply in_rev, in_seq in Hk. cbn [fits]. lia.
Qed.

Lemma fits_spec_phase_adder (T S : nat) :
  Forall (fits (T + S)) (spec_phase_adder T S).
Proof.
  apply Forall_flat_map. intros i Hi. apply in_seq in Hi.
  apply Forall_map, Forall_forall. intros j Hj. apply in_seq in Hj.
  cbn [fits]. lia.
Qed.

Lemma fits_spec_classical (T : nat) (k : Z) :
  Forall (fits T) (spec_classical_phase_adder T k).
Proof.
  apply Forall_flat_map. intros i Hi. apply in_seq in Hi.
  apply Forall_flat_map. intros j _.
  destruct (Z.testbit k (Z.of_nat j)); repeat constructor. cbn [fits]. lia.
Qed.

(** ** What [AdderGate] and [ClassicalAdderGate] build *)

Lemma QFTGate_swap_free (T : nat) :
  QFTGate T 0 false false false = Ok (mkGate T (qft_circuit T)).
Proof.
  unfold QFTGate. cbn [andb]. change (Z.of_nat 0) with 0%Z.
  now rewrite QFT_swap_free.
Qed.

Lemma AdderGate_eq (T S : nat) :
  (T <= 1023 \/ S = 0)%nat ->
  AdderGate (Z.of_nat T) (Z.of_nat S)
  = Ok (mkGate (T + S)
          (qft_circuit T ++ spec_phase_adder T S
           ++ inverse_circuit (qft_circuit T))).
Proof.
  intros Hsmall.
  unfold AdderGate. rewrite AdderPhaseGate_eq by assumption.
  unfold QuantumRegister.
  destruct (Z.ltb_spec (Z.of_nat T) 0) as [? | _]; [lia |].
  destruct (Z.ltb_spec (Z.of_nat S) 0) as [? | _]; [lia |].
  cbn [bind add_register new_circuit qc_qubits qc_data]. rewrite !Nat2Z.id.
  rewrite QFTGate_swap_free. cbn [bind].
  unfold append, inverse, qubit_list.
  cbn [num_qubits definition fold_left app Nat.add].
  rewrite <- seq_app.
  rewrite !length_seq, !Nat.eqb_refl.
  cbn [bind to_gate qc_qubits qc_data app].
  rewrite !map_relabel_seq.
  - now rewrite <- app_assoc.
  - apply fits_inverse_circuit, fits_qft_circuit.
  - apply fits_spec_phase_adder.
  - apply fits_qft_circuit.
Qed.

Lemma ClassicalAdderGate_eq (T : nat) (k : Z) :
  (0 <= k)%Z -> phase_overflows T k = false ->
  ClassicalAdderGate (Z.of_nat T) k
  = Ok (mkGate T
          (qft_circuit T ++ spec_classical_phase_adder T k
           ++ inverse_circuit (qft_circuit T))).
Proof.
  intros Hk Hno. unfold ClassicalAdderGate.
  rewrite ClassicalAdderPhaseGate_eq by assumption. unfold QuantumRegister.
  destruct (Z.ltb_spec (Z.of_nat T) 0) as [? | _]; [lia |].
  cbn [bind add_register new_circuit qc_qubits qc_data]. rewrite !Nat2Z.id.
  rewrite QFTGate_swap_free. cbn [bind].
  unfold append, inverse, qubit_list.
  cbn [num_qubits definition fold_left app Nat.add].
  rewrite !length_seq, !Nat.eqb_refl.
  cbn [bind to_gate qc_qubits qc_data app].
  rewrite !map_relabel_seq.
  - now rewrite <- app_assoc.
  - apply fits_inverse_circuit, fits_qft_circuit.
  - apply fits_spec_classical.
  - apply fits_qft_circuit.
Qed.

Lemma AdderGate_overflow (T S : nat) :
  (1024 <= T)%nat -> (1 <= S)%nat ->
  AdderGate (Z.of_nat T) (Z.of_nat S) = Raise OverflowError.
Proof.
  intros HT HS. unfold AdderGate.
  rewrite AdderPhaseGate_overflow by assumption. unfold QuantumRegister.
  destruct (Z.ltb_spec (Z.of_nat T) 0) as [? | _]; [lia |].
  destruct (Z.ltb_spec (Z.of_nat S) 0) as [? | _]; [lia |].
  cbn [bind add_register new_circuit]. rewrite Nat2Z.id.
  now rewrite QFTGate_swap_free.
Qed.

Lemma ClassicalAdderGate_overflow (T : nat) (k : Z) :
  (0 <= k)%Z -> phase_overflows T k = true ->
  ClassicalAdderGate (Z.of_nat T) k = Raise OverflowError.
Proof.
  intros Hk Hov. unfold ClassicalAdderGate.
  rewrite ClassicalAdderPhaseGate_overflow by assumption.
  unfold QuantumRegister.
  destruct (Z.ltb_spec (Z.of_nat T) 0) as [? | _]; [lia |].
  cbn [bind add_register new_circuit]. rewrite Nat2Z.id.
  now rewrite QFTGate_swap_free.
Qed.


(** ** Adding in the Fourier basis *)

Lemma encode_div (T x s : nat) :
  (x < 2 ^ T)%nat -> encode T x s / 2 ^ T = s.
Proof.
  intros Hx. unfold encode.
  rewrite Nat.mul_comm, Nat.div_add by (apply Nat.pow_nonzero; lia).
  rewrite Nat.div_small by assumption. reflexivity.
Qed.

Lemma encode_mod (T x s : nat) :
  (x < 2 ^ T)%nat -> encode T x s mod 2 ^ T = x.
Proof.
  intros Hx. unfold encode.
  rewrite Nat.mul_comm, Nat.Div0.mod_add. now apply Nat.mod_small.
Qed.

Lemma mod_pow2_restrict (a b m n : nat) :
  (m <= n)%nat -> a mod 2 ^ n = b mod 2 ^ n -> a mod 2 ^ m = b mod 2 ^ m.
Proof.
  intros Hm E. apply mod_pow2_eq_iff. intros i Hi.
  apply (proj1 (mod_pow2_eq_iff a b n) E). lia.
Qed.

(** Multiplying the Fourier image of [z] by the kicks of an addend gives
    the Fourier image of the sum, taken modulo [2^T] on the low qubits. *)
Lemma fourier_kick (T z z' a0 : nat) (a : nat -> nat) :
  (forall y, y / 2 ^ T = z / 2 ^ T -> a y = a0) ->
  z' / 2 ^ T = z / 2 ^ T ->
  z' mod 2 ^ T = (z + a0) mod 2 ^ T ->
  (fun y => Cmul (diag_phase 0 T (a y) y) (fourier T z y)) = fourier T z'.
Proof.
  intros Ha Ehi Elo. extensionality y. unfold fourier, qft_stage.
  assert (Eag : agree_outside 0 T z' y = agree_outside 0 T z y).
  { unfold agree_outside. now rewrite Ehi, !Nat.mod_1_r. }
  rewrite Eag. destruct (agree_outside 0 T z y) eqn:Eg; [| apply Cmul_0_r].
  assert (Ey : y / 2 ^ T = z / 2 ^ T).
  { unfold agree_outside in Eg. apply andb_true_iff in Eg.
    now apply Nat.eqb_eq. }
  rewrite (Ha y Ey), Nat.sub_0_r.
  assert (Ek : diag_phase 0 T z' y
               = Cmul (diag_phase 0 T a0 y) (diag_phase 0 T z y)).
  { unfold diag_phase. rewrite <- big_mul_mul. apply big_mul_ext.
    intros i Hi. apply in_seq in Hi. unfold kick.
    destruct (Nat.testbit y i); [| now rewrite Cmul_1_l].
    rewrite <- Cexp_add, <- turn_add. apply Cexp_turn_congr.
    apply mod_pow2_restrict with (n := T); [lia |].
    rewrite Elo. f_equal. lia. }
  rewrite Ek.
  generalize (diag_phase 0 T a0 y), (diag_phase 0 T z y), ((/ sqrt 2) ^ T)%R.
  intros. cring.
Qed.

(** The quantum adder on a basis state of the whole register file. *)
Lemma adder_on_ket (T S z : nat) :
  run (qft_circuit T ++ spec_phase_adder T S
       ++ inverse_circuit (qft_circuit T)) (ket z)
  = ket (encode T ((target_value T z + summand_value T S z) mod 2 ^ T)
                  (z / 2 ^ T)).
Proof.
  rewrite !run_app, run_qft_circuit_ket, run_spec_phase_adder.
  set (x' := ((target_value T z + summand_value T S z) mod 2 ^ T)%nat).
  assert (Hx' : (x' < 2 ^ T)%nat).
  { apply Nat.mod_upper_bound. apply Nat.pow_nonzero. lia. }
  rewrite (@fourier_kick T z (encode T x' (z / 2 ^ T))
             (summand_value T S z) (fun y => summand_value T S y)).
  - apply run_inverse_qft_fourier.
  - intros y Ey. unfold summand_value. now rewrite Ey.
  - now apply encode_div.
  - rewrite encode_mod by assumption. unfold x', target_value.
    now rewrite Nat.Div0.add_mod_idemp_l.
Qed.

(** The classical adder on a basis state of the whole register file. *)
Lemma classical_adder_on_ket (T : nat) (k : Z) (z : nat) :
  (0 <= k)%Z ->
  run (qft_circuit T ++ spec_classical_phase_adder T k
       ++ inverse_circuit (qft_circuit T)) (ket z)
  = ket (encode T ((target_value T z + Z.to_nat k) mod 2 ^ T) (z / 2 ^ T)).
Proof.
  intros Hk.
  rewrite !run_app, run_qft_circuit_ket, run_spec_classical by assumption.
  set (x' := ((target_value T z + Z.to_nat k) mod 2 ^ T)%nat).
  assert (Hx' : (x' < 2 ^ T)%nat).
  { apply Nat.mod_upper_bound. apply Nat.pow_nonzero. lia. }
  rewrite (@fourier_kick T z (encode T x' (z / 2 ^ T))
             (Z.to_nat k) (fun _ => Z.to_nat k)).
  - apply run_inverse_qft_fourier.
  - reflexivity.
  - now apply encode_div.
  - rewrite encode_mod by assumption. unfold x', target_value.
    now rewrite Nat.Div0.add_mod_idemp_l.
Qed.

(** ** Linearity *)

Lemma apply_sadd (g : instr) (psi phi : state) :
  apply g (sadd psi phi) = sadd (apply g psi) (apply g phi).
Proof.
  extensionality y. unfold sadd.
  destruct g as [q | theta q | theta c t | a b | ]; cbn [apply].
  - destruct (Nat.testbit y q);
      generalize (psi (set_bit y q false)), (psi (set_bit y q true)),
                 (phi (set_bit y q false)), (phi (set_bit y q true));
      intros; cring.
  - destruct (Nat.testbit y q); [| reflexivity].
    generalize (Cexp theta), (psi y), (phi y). intros; cring.
  - destruct (Nat.testbit y c && Nat.testbit y t); [| reflexivity].
    generalize (Cexp theta), (psi y), (phi y). intros; cring.
  - reflexivity.
  - reflexivity.
Qed.

Lemma apply_sscale (g : instr) (r : R) (psi : state) :
  apply g (sscale r psi) = sscale r (apply g psi).
Proof.
  extensionality y. unfold sscale.
  destruct g as [q | theta q | theta c t | a b | ]; cbn [apply].
  - destruct (Nat.testbit y q);
      generalize (psi (set_bit y q false)), (psi (set_bit y q true));
      intros; cring.
  - destruct (Nat.testbit y q); [| reflexivity].
    generalize (Cexp theta), (psi y). intros; cring.
  - destruct (Nat.testbit y c && Nat.testbit y t); [| reflexivity].
    generalize (Cexp theta), (psi y). intros; cring.
  - reflexivity.
  - reflexivity.
Qed.

Lemma run_sadd (c : list instr) (psi phi : state) :
  run c (sadd psi phi) = sadd (run c psi) (run c phi).
Proof.
  revert psi phi. induction c as [| g c IH]; intros psi phi; [reflexivity |].
  change (run (g :: c) ?s) with (run c (apply g s)).
  now rewrite apply_sadd, IH.
Qed.

Lemma run_sscale (c : list instr) (r : R) (psi : state) :
  run c (sscale r psi) = sscale r (run c psi).
Proof.
  revert psi. induction c as [| g c IH]; intro psi; [reflexivity |].
  change (run (g :: c) ?s) with (run c (apply g s)).
  now rewrite apply_sscale, IH.
Qed.

(** ** Two classical adders in a row *)



(** ** A Hadamard on one qubit of a basis state *)

Lemma hadamard_on_ket (q z : nat) :
  apply (H q) (ket z) = qft_inner (q + 1) q q z.
Proof.
  rewrite (ket_is_stage (q + 1) z). apply hadamard_step. lia.
Qed.

(** ** The circuit of [main] *)

Lemma main_circuit_eq :
  main_circuit
  = Ok (mkQC 5
          (H 3
           :: (qft_circuit 3 ++ spec_phase_adder 3 2
               ++ inverse_circuit (qft_circuit 3))
           ++ (qft_circuit 3 ++ spec_classical_phase_adder 3 1
               ++ inverse_circuit (qft_circuit 3))
           ++ (qft_circuit 3 ++ spec_classical_phase_adder 3 2
               ++ inverse_circuit (qft_circuit 3)))).
Proof.
  cbv beta zeta delta [main_circuit].
  change (AdderGate 3 2) with (AdderGate (Z.of_nat 3) (Z.of_nat 2)).
  change (ClassicalAdderGate 3) with (ClassicalAdderGate (Z.of_nat 3)).
  rewrite AdderGate_eq by lia.
  rewrite (@ClassicalAdderGate_eq 3 1), (@ClassicalAdderGate_eq 3 2)
    by (lia || (apply phase_overflows_small; lia)).
  unfold QuantumRegister, append, qubit_list.
  cbn [bind].
  cbn [Z.ltb Z.compare bind].
  cbn [add_register new_circuit qc_qubits qc_data Z.to_nat Pos.to_nat Pos.iter_op Nat.add].
  cbn [fold_left app seq].
  cbn [num_qubits definition length Nat.eqb].
  cbn [bind qc_qubits qc_data qubit_at nth h emit Z.to_nat].
  replace (Pos.to_nat 3) with 3%nat by reflexivity.
  replace (Pos.to_nat 2) with 2%nat by reflexivity.
  replace (seq 0 3 ++ seq 3 2) with (seq 0 5) by reflexivity.
  rewrite !length_seq.
  replace (qubit_at (seq 3 2) 0) with 3%nat by reflexivity.
  replace (3 + 2)%nat with 5%nat by reflexivity.
  cbn [Nat.eqb bind qc_qubits qc_data app].
  rewrite (@map_relabel_seq 5), !(@map_relabel_seq 3).
  - rewrite <- !app_assoc. cbn [app]. reflexivity.
  - apply Forall_app; split; [apply fits_qft_circuit |].
    apply Forall_app; split;
      [apply fits_spec_classical
      | apply fits_inverse_circuit, fits_qft_circuit].
  - apply Forall_app; split; [apply fits_qft_circuit |].
    apply Forall_app; split;
      [apply fits_spec_classical
      | apply fits_inverse_circuit, fits_qft_circuit].
  - apply Forall_app; split.
    { eapply Forall_impl; [| apply fits_qft_circuit].
      intro; apply fits_mono; lia. }
    apply Forall_app; split; [exact (fits_spec_phase_adder 3 2) |].
    eapply Forall_impl; [| apply fits_inverse_circuit, fits_qft_circuit].
    intro; apply fits_mono; lia.
Qed.

Lemma prepared_state :
  apply (H 3) (ket 0) = sscale (/ sqrt 2) (sadd (ket 0) (ket 8)).
Proof.
  rewrite (hadamard_on_ket 3 0). extensionality y.
  unfold qft_inner, agree_outside, sscale, sadd, ket, diag_phase.
  change (3 + 1 - 3)%nat with 1%nat. change (3 + 1 - 3 - 1)%nat with 0%nat.
  change (0 mod 2 ^ (3 + 1) - 0 mod 2 ^ 3)%nat with 0%nat.
  change (0 mod 2 ^ 3)%nat with 0%nat. change (0 / 2 ^ (3 + 1))%nat with 0%nat.
  change (2 ^ 3)%nat with 8%nat. change (2 ^ (3 + 1))%nat with 16%nat.
  cbn [seq big_mul pow]. rewrite turn_0, Cexp_0.
  destruct (Nat.eqb_spec (y mod 8) 0) as [Em | Em];
    destruct (Nat.eqb_spec (y / 16) 0) as [Ed | Ed];
    destruct (Nat.eqb_spec y 0) as [E0 | E0];
    destruct (Nat.eqb_spec y 8) as [E8 | E8];
    cbn [andb]; try (exfalso; subst; simpl in *; lia);
    try (exfalso;
         pose proof (Nat.div_mod_eq y 8); pose proof (Nat.div_mod_eq y 16);
         pose proof (Nat.mod_upper_bound y 16); lia);
    destruct (Nat.testbit y 3); cring.
Qed.

Lemma main_state :
  run (H 3
       :: (qft_circuit 3 ++ spec_phase_adder 3 2
           ++ inverse_circuit (qft_circuit 3))
       ++ (qft_circuit 3 ++ spec_classical_phase_adder 3 1
           ++ inverse_circuit (qft_circuit 3))
       ++ (qft_circuit 3 ++ spec_classical_phase_adder 3 2
           ++ inverse_circuit (qft_circuit 3))) (ket 0)
  = sscale (/ sqrt 2) (sadd (ket (encode 3 3 0)) (ket (encode 3 4 1))).
Proof.
  change (run (?g :: ?c) ?s) with (run c (apply g s)).
  rewrite prepared_state, run_sscale, run_sadd.
  set (add_s := qft_circuit 3 ++ spec_phase_adder 3 2
                ++ inverse_circuit (qft_circuit 3)).
  set (add_1 := qft_circuit 3 ++ spec_classical_phase_adder 3 1
                ++ inverse_circuit (qft_circuit 3)).
  set (add_2 := qft_circuit 3 ++ spec_classical_phase_adder 3 2
                ++ inverse_circuit (qft_circuit 3)).
  rewrite !run_app. subst add_s add_1 add_2.
  rewrite !adder_on_ket.
  replace (encode 3 ((target_value 3 0 + summand_value 3 2 0) mod 2 ^ 3) (0 / 2 ^ 3))
    with 0%nat by reflexivity.
  replace (encode 3 ((target_value 3 8 + summand_value 3 2 8) mod 2 ^ 3) (8 / 2 ^ 3))
    with 9%nat by reflexivity.
  rewrite !(@classical_adder_on_ket 3 1) by lia.
  replace (encode 3 ((target_value 3 0 + Z.to_nat 1) mod 2 ^ 3) (0 / 2 ^ 3))
    with 1%nat by reflexivity.
  replace (encode 3 ((target_value 3 9 + Z.to_nat 1) mod 2 ^ 3) (9 / 2 ^ 3))
    with 10%nat by reflexivity.
  rewrite !(@classical_adder_on_ket 3 2) by lia.
  replace (encode 3 ((target_value 3 1 + Z.to_nat 2) mod 2 ^ 3) (1 / 2 ^ 3))
    with (encode 3 3 0) by reflexivity.
  replace (encode 3 ((target_value 3 10 + Z.to_nat 2) mod 2 ^ 3) (10 / 2 ^ 3))
    with (encode 3 4 1) by reflexivity.
  reflexivity.
Qed.

Lemma main_probabilities (y : nat) :
  prob (sscale (/ sqrt 2) (sadd (ket (encode 3 3 0)) (ket (encode 3 4 1)))) y
  = if ((y =? 3) || (y =? 12))%nat then (1 / 2)%R else 0%R.
Proof.
  change (encode 3 3 0) with 3%nat. change (encode 3 4 1) with 12%nat.
  unfold prob, sscale, sadd, ket.
  pose proof sqrt2_inv_sq as E.
  destruct (Nat.eqb_spec y 3) as [E3 | E3];
    destruct (Nat.eqb_spec y 12) as [E12 | E12]; cbn [orb];
    try (exfalso; lia);
    unfold Cnorm2, Cscale, Cadd, C0, C1; cbn [fst snd].
  - transitivity (/ sqrt 2 * / sqrt 2)%R; [ring | rewrite E; field].
  - transitivity (/ sqrt 2 * / sqrt 2)%R; [ring | rewrite E; field].
  - ring.
Qed.

Lemma event_prob_ext (n : nat) (sel : nat -> bool) (psi : state) (f : nat -> R) :
  (forall y, prob psi y = f y) ->
  event_prob n sel psi
  = rsum (map (fun y => if sel y then f y else 0%R) (seq 0 (2 ^ n))).
Proof.
  intros E. unfold event_prob. f_equal. apply map_ext.
  intro y. now rewrite E.
Qed.


(** ** Results of the composite builders *)

Lemma AdderGate_negative (T S : Z) :
  (T < 0 \/ S < 0)%Z -> AdderGate T S = Raise CircuitError.
Proof.
  intros Hneg. unfold AdderGate, QuantumRegister.
  destruct (Z.ltb_spec T 0) as [HT | HT]; [reflexivity |].
  destruct (Z.ltb_spec S 0) as [HS | HS]; [reflexivity | lia].
Qed.

Lemma ClassicalAdderGate_negative_length (T k : Z) :
  (T < 0)%Z -> ClassicalAdderGate T k = Raise CircuitError.
Proof.
  intros HT. unfold ClassicalAdderGate, QuantumRegister.
  destruct (Z.ltb_spec T 0) as [_ | ?]; [reflexivity | lia].
Qed.

Lemma ClassicalAdderGate_negative_constant (T k : Z) :
  (0 <= T)%Z -> (k < 0)%Z -> ClassicalAdderGate T k = Raise ValueError.
Proof.
  intros HT Hk. unfold ClassicalAdderGate, QuantumRegister.
  destruct (Z.ltb_spec T 0) as [? | _]; [lia |].
  cbn [bind add_register new_circuit].
  unfold ClassicalAdderPhaseGate. now rewrite source_bits_negative.
Qed.

(** ** The bit list read back *)

Lemma decode_pos_bits (p : positive) : decode_bits (pos_bits p) = Zpos p.
Proof.
  unfold decode_bits.
  induction p as [p IH | p IH |]; cbn [pos_bits fold_right];
    try rewrite IH; lia.
Qed.

Lemma pos_bits_binary (p : positive) :
  Forall (fun b => b = 0%Z \/ b = 1%Z) (pos_bits p).
Proof.
  induction p as [p IH | p IH |]; cbn [pos_bits].
  - constructor; [now right | exact IH].
  - constructor; [now left | exact IH].
  - constructor; [now right | constructor].
Qed.

Lemma last_pos_bits (p : positive) : last (pos_bits p) 0%Z = 1%Z.
Proof.
  induction p as [p IH | p IH |]; [| | reflexivity];
    cbn [pos_bits]; (destruct (pos_bits p) eqn:E; [now destruct p |]);
    exact IH.
Qed.

(** ** Bits of the constant beyond the target width *)

Lemma flat_map_nil {A B : Type} (F : A -> list B) (l : list A) :
  (forall a, In a l -> F a = []) -> flat_map F l = [].
Proof.
  induction l as [| a l IH]; intro E; [reflexivity |].
  cbn [flat_map]. rewrite E by now left. apply IH.
  intros; apply E; now right.
Qed.

Lemma flat_map_seq_extend {B : Type} (F : nat -> list B) (m n : nat) :
  (m <= n)%nat ->
  (forall j, (m <= j < n)%nat -> F j = []) ->
  flat_map F (seq 0 m) = flat_map F (seq 0 n).
Proof.
  intros Hmn E. replace n with (m + (n - m))%nat by lia.
  rewrite seq_app, flat_map_app, (flat_map_nil F (seq (0 + m) (n - m))).
  - now rewrite app_nil_r.
  - intros j Hj. apply in_seq in Hj. apply E. lia.
Qed.

Lemma classical_row_full (k : Z) (i : nat) :
  (0 <= k)%Z ->
  flat_map (fun j => if Z.testbit k (Z.of_nat j)
                     then [P (2 * PI / 2 ^ (1 + i - j)) i] else [])
           (seq 0 (Nat.min (i + 1) (bit_length k)))
  = flat_map (fun j => if Z.testbit k (Z.of_nat j)
                       then [P (2 * PI / 2 ^ (1 + i - j)) i] else [])
             (seq 0 (i + 1)).
Proof.
  intros Hk. apply flat_map_seq_extend; [lia |].
  intros j Hj. rewrite testbit_above_bit_length; [reflexivity | assumption |].
  destruct (Nat.le_gt_cases (i + 1) (bit_length k)); lia.
Qed.

Lemma spec_classical_mod (T : nat) (k : Z) :
  (0 <= k)%Z ->
  spec_classical_phase_adder T (k mod 2 ^ Z.of_nat T)
  = spec_classical_phase_adder T k.
Proof.
  intros Hk.
  assert (Hm : (0 <= k mod 2 ^ Z.of_nat T)%Z).
  { apply Z.mod_pos_bound. apply Z.pow_pos_nonneg; lia. }
  unfold spec_classical_phase_adder.
  apply flat_map_ext_in. intros i Hi. apply in_seq in Hi.
  rewrite !classical_row_full by assumption.
  apply flat_map_ext_in. intros j Hj. apply in_seq in Hj.
  rewrite Z.mod_pow2_bits_low by lia. reflexivity.
Qed.

(** ** Number of rotations of the phase adder *)

Lemma length_flat_map_seq {B : Type} (F : nat -> list B) (n : nat) :
  length (flat_map F (seq 0 (S n)))
  = (length (flat_map F (seq 0 n)) + length (F n))%nat.
Proof. now rewrite seq_S, flat_map_app, length_app; cbn [flat_map]; rewrite app_nil_r. Qed.

Lemma length_triangle {B : Type} (F : nat -> nat -> B) (n S : nat) :
  ((n <= S ->
    2 * length (flat_map (fun i => map (F i) (seq 0 (Nat.min (i + 1) S)))
                         (seq 0 n)) = n * (n + 1))
   /\ (S <= n ->
       2 * length (flat_map (fun i => map (F i) (seq 0 (Nat.min (i + 1) S)))
                            (seq 0 n)) = S * (S + 1) + 2 * S * (n - S)))%nat.
Proof.
  induction n as [| n IH].
  - split; intro; [reflexivity |].
    replace S with 0%nat by lia. reflexivity.
  - rewrite length_flat_map_seq, length_map, length_seq.
    destruct IH as [IH1 IH2].
    remember (length (flat_map
                (fun i => map (F i) (seq 0 (Nat.min (i + 1) S))) (seq 0 n))) as L.
    split; intro HnS.
    + rewrite Nat.min_l by lia. specialize (IH1 ltac:(lia)). nia.
    + destruct (Nat.eq_dec S (n + 1)) as [-> | Hne].
      * rewrite Nat.min_l by lia. specialize (IH1 ltac:(lia)). nia.
      * rewrite Nat.min_r by lia. specialize (IH2 ltac:(lia)).
        replace (Datatypes.S n - S)%nat with (Datatypes.S (n - S)) by lia. nia.
Qed.

(** ** Phase layers do not change what is measured *)

Lemma Cnorm2_mul (a b : C) : Cnorm2 (Cmul a b) = (Cnorm2 a * Cnorm2 b)%R.
Proof. destruct a, b. unfold Cnorm2, Cmul; cbn [fst snd]. ring. Qed.

Lemma Cnorm2_Cexp (theta : R) : Cnorm2 (Cexp theta) = 1%R.
Proof.
  unfold Cnorm2, Cexp; cbn [fst snd].
  pose proof (sin2_cos2 theta) as E. unfold Rsqr in E. lra.
Qed.

Lemma prob_run_diagonal (c : list instr) (psi : state) (y : nat) :
  Forall diagonal c -> prob (run c psi) y = prob psi y.
Proof.
  intros Hc. rewrite run_diagonal by assumption. unfold prob.
  rewrite Cnorm2_mul, Cnorm2_Cexp. ring.
Qed.

Lemma diagonal_spec_phase_adder (T S : nat) :
  Forall diagonal (spec_phase_adder T S).
Proof.
  apply Forall_flat_map. intros i _. apply Forall_forall.
  intros g Hg. apply in_map_iff in Hg. destruct Hg as [j [<- _]]. exact I.
Qed.

Lemma diagonal_spec_classical (T : nat) (k : Z) :
  Forall diagonal (spec_classical_phase_adder T k).
Proof.
  apply Forall_flat_map. intros i _. apply Forall_flat_map. intros j _.
  destruct (Z.testbit k (Z.of_nat j)); repeat constructor.
Qed.

(** ** [qubit_list] *)

Lemma qubit_list_acc (registers : list (list nat)) (acc : list nat) :
  fold_left (fun a r => a ++ r) registers acc = acc ++ concat registers.
Proof.
  revert acc. induction registers as [| r rs IH]; intro acc; cbn [fold_left concat].
  - now rewrite app_nil_r.
  - rewrite IH. now rewrite <- app_assoc.
Qed.

(** ** Either a gate or an overflow *)

Lemma ClassicalAdderPhaseGate_cases (T : nat) (k : Z) :
  (0 <= k)%Z ->
  ClassicalAdderPhaseGate (Z.of_nat T) k
  = if phase_overflows T k then Raise OverflowError
    else Ok (mkGate T (spec_classical_phase_adder T k)).
Proof.
  intros Hk. destruct (phase_overflows T k) eqn:E.
  - now apply ClassicalAdderPhaseGate_overflow.
  - now apply ClassicalAdderPhaseGate_eq.
Qed.

Lemma ClassicalAdderGate_cases (T : nat) (k : Z) :
  (0 <= k)%Z ->
  ClassicalAdderGate (Z.of_nat T) k
  = if phase_overflows T k then Raise OverflowError
    else Ok (mkGate T (qft_circuit T ++ spec_classical_phase_adder T k
                       ++ inverse_circuit (qft_circuit T))).
Proof.
  intros Hk. destruct (phase_overflows T k) eqn:E.
  - now apply ClassicalAdderGate_overflow.
  - now apply ClassicalAdderGate_eq.
Qed.

Lemma existsb_ext_in {A : Type} (f g : A -> bool) (l : list A) :
  (forall a, In a l -> f a = g a) -> existsb f l = existsb g l.
Proof.
  induction l as [| a l IH]; intro E; [reflexivity |].
  cbn [existsb]. rewrite E by now left. f_equal.
  apply IH. intros; apply E; now right.
Qed.

Lemma phase_overflows_mod (T : nat) (k : Z) :
  phase_overflows T (k mod 2 ^ Z.of_nat T) = phase_overflows T k.
Proof.
  unfold phase_overflows. apply existsb_ext_in. intros j Hj.
  apply in_seq in Hj. rewrite Z.mod_pow2_bits_low by lia. reflexivity.
Qed.

(** ** Finite sums of amplitudes *)

Lemma csum_ext (l : list nat) (f g : nat -> C) :
  (forall x, In x l -> f x = g x) -> csum l f = csum l g.
Proof.
  induction l as [| x l IH]; intro E; [reflexivity |].
  cbn [csum fold_right]. rewrite E by now left. f_equal.
  apply IH. intros; apply E; now right.
Qed.

Lemma csum_add (l : list nat) (f g : nat -> C) :
  csum l (fun x => Cadd (f x) (g x)) = Cadd (csum l f) (csum l g).
Proof.
  induction l as [| x l IH]; cbn [csum fold_right]; [cring |].
  fold (csum l (fun x => Cadd (f x) (g x))). fold (csum l f). fold (csum l g).
  rewrite IH. generalize (f x), (g x), (csum l f), (csum l g). intros. cring.
Qed.

Lemma csum_mul_l (l : list nat) (c : C) (f : nat -> C) :
  csum l (fun x => Cmul c (f x)) = Cmul c (csum l f).
Proof.
  induction l as [| x l IH]; cbn [csum fold_right]; [cring |].
  fold (csum l (fun x => Cmul c (f x))). fold (csum l f).
  rewrite IH. generalize (f x), (csum l f). intros. cring.
Qed.

Lemma csum_scale (l : list nat) (r : R) (f : nat -> C) :
  csum l (fun x => Cscale r (f x)) = Cscale r (csum l f).
Proof.
  induction l as [| x l IH]; cbn [csum fold_right]; [cring |].
  fold (csum l (fun x => Cscale r (f x))). fold (csum l f).
  rewrite IH. generalize (f x), (csum l f). intros. cring.
Qed.

Lemma csum_opp (l : list nat) (f : nat -> C) :
  csum l (fun x => Copp (f x)) = Copp (csum l f).
Proof.
  induction l as [| x l IH]; cbn [csum fold_right]; [cring |].
  fold (csum l (fun x => Copp (f x))). fold (csum l f).
  rewrite IH. generalize (f x), (csum l f). intros. cring.
Qed.

Lemma csum_single (v : nat -> C) (x0 a n : nat) :
  csum (seq a n) (fun x => if (x =? x0)%nat then v x else C0)
  = if ((a <=? x0) && (x0 <? a + n))%nat then v x0 else C0.
Proof.
  revert a. induction n as [| n IH]; intro a.
  - cbn [seq csum fold_right].
    destruct (Nat.leb_spec a x0), (Nat.ltb_spec x0 (a + 0)); cbn [andb];
      try reflexivity; lia.
  - cbn [seq csum fold_right].
    fold (csum (seq (S a) n) (fun x => if (x =? x0)%nat then v x else C0)).
    rewrite IH.
    destruct (Nat.eqb_spec a x0) as [-> | Hne].
    + replace ((S x0 <=? x0) && (x0 <? S x0 + n))%nat with false.
      2:{ symmetry. apply andb_false_iff. left. apply Nat.leb_gt. lia. }
      replace ((x0 <=? x0) && (x0 <? x0 + S n))%nat with true.
      2:{ symmetry. apply andb_true_iff.
          split; [apply Nat.leb_le | apply Nat.ltb_lt]; lia. }
      generalize (v x0). intros. cring.
    + replace ((S a <=? x0) && (x0 <? S a + n))%nat
        with ((a <=? x0) && (x0 <? a + S n))%nat.
      2:{ apply eq_true_iff_eq.
          rewrite !andb_true_iff, !Nat.leb_le, !Nat.ltb_lt. lia. }
      destruct ((a <=? x0) && (x0 <? a + S n))%nat;
        [generalize (v x0); intros |]; cring.
Qed.

(** ** Gates act within a block of labels *)

Lemma set_bit_high (n y q : nat) (b : bool) :
  (q < n)%nat -> set_bit y q b / 2 ^ n = y / 2 ^ n.
Proof.
  intros Hq. apply div_pow2_eq_iff. intros m Hm.
  rewrite testbit_set_bit. destruct (Nat.eqb_spec q m); [lia | reflexivity].
Qed.

Lemma swap_bits_high (n y a b : nat) :
  (a < n)%nat -> (b < n)%nat -> swap_bits y a b / 2 ^ n = y / 2 ^ n.
Proof.
  intros Ha Hb. unfold swap_bits. now rewrite !set_bit_high.
Qed.

Lemma encode_eqb (n x hi y : nat) :
  (x < 2 ^ n)%nat -> hi = (y / 2 ^ n)%nat ->
  (y =? encode n x hi)%nat = (x =? y mod 2 ^ n)%nat.
Proof.
  intros Hx ->. apply eq_true_iff_eq. rewrite !Nat.eqb_eq. split.
  - intros E. rewrite E. symmetry. now apply encode_mod.
  - intros ->. unfold encode. rewrite Nat.add_comm. apply Nat.div_mod_eq.
Qed.

(** The amplitude a circuit on [n] qubits gives the label [y] is a finite
    combination of the input amplitudes on the labels that share the
    qubits above [n] with [y]; the coefficients are the amplitudes the
    circuit gives [y] from those basis states. *)
Lemma run_matrix (n : nat) (c : list instr) :
  Forall (fits n) c ->
  forall (psi : state) (y : nat),
    run c psi y
    = csum (seq 0 (2 ^ n))
        (fun x => Cmul (run c (ket (encode n x (y / 2 ^ n))) y)
                       (psi (encode n x (y / 2 ^ n)))).
Proof.
  induction c as [| g c IH] using rev_ind; intros Hc psi y.
  - cbn [run fold_left].
    rewrite (csum_ext _ _
               (fun x => if (x =? y mod 2 ^ n)%nat
                         then psi (encode n x (y / 2 ^ n)) else C0)).
    + rewrite csum_single. cbn [Nat.leb andb Nat.add].
      destruct (Nat.ltb_spec (y mod 2 ^ n) (2 ^ n)) as [_ | Hge].
      * f_equal. unfold encode. rewrite Nat.add_comm. apply Nat.div_mod_eq.
      * pose proof (Nat.mod_upper_bound y (2 ^ n)
                      ltac:(apply Nat.pow_nonzero; lia)). lia.
    + intros x Hx. apply in_seq in Hx. unfold ket.
      rewrite encode_eqb by (lia || reflexivity).
      destruct (x =? y mod 2 ^ n)%nat; cring.
  - apply Forall_app in Hc. destruct Hc as [Hc Hg].
    apply Forall_inv in Hg. specialize (IH Hc).
    rewrite run_app. cbn [run fold_left].
    assert (E : forall phi, run (c ++ [g]) phi = apply g (run c phi)).
    { intro phi. now rewrite run_app. }
    rewrite (csum_ext _ _
               (fun x => Cmul (apply g (run c (ket (encode n x (y / 2 ^ n)))) y)
                              (psi (encode n x (y / 2 ^ n)))))
      by (intros x _; now rewrite E).
    destruct g as [q | theta q | theta a b | a b | ]; cbn [apply fits] in *.
    + rewrite (IH psi (set_bit y q false)), (IH psi (set_bit y q true)).
      rewrite !set_bit_high by assumption.
      destruct (Nat.testbit y q).
      * rewrite <- csum_opp, <- csum_add, <- csum_scale.
        apply csum_ext. intros x _.
        generalize (psi (encode n x (y / 2 ^ n))),
                   (run c (ket (encode n x (y / 2 ^ n))) (set_bit y q false)),
                   (run c (ket (encode n x (y / 2 ^ n))) (set_bit y q true)).
        intros. cring.
      * rewrite <- csum_add, <- csum_scale.
        apply csum_ext. intros x _.
        generalize (psi (encode n x (y / 2 ^ n))),
                   (run c (ket (encode n x (y / 2 ^ n))) (set_bit y q false)),
                   (run c (ket (encode n x (y / 2 ^ n))) (set_bit y q true)).
        intros. cring.
    + destruct (Nat.testbit y q); [| apply IH].
      rewrite (IH psi y), <- csum_mul_l. apply csum_ext. intros x _.
      now rewrite Cmul_assoc.
    + destruct (Nat.testbit y a && Nat.testbit y b); [| apply IH].
      rewrite (IH psi y), <- csum_mul_l. apply csum_ext. intros x _.
      now rewrite Cmul_assoc.
    + destruct Hg as [Ha Hb].
      rewrite (IH psi (swap_bits y a b)), swap_bits_high by assumption.
      reflexivity.
    + apply IH.
Qed.

(** A circuit that sends basis states to basis states moves the
    amplitudes of every state along the same map of labels. *)
Lemma run_permutes (n : nat) (c : list instr) (sigma : nat -> nat) :
  Forall (fits n) c ->
  (forall z, run c (ket z) = ket (sigma z)) ->
  (forall z, sigma z / 2 ^ n = z / 2 ^ n) ->
  forall (psi : state) (z : nat), run c psi (sigma z) = psi z.
Proof.
  intros Hc Hket Hhi psi z.
  assert (Hinj : forall a b, sigma a = sigma b -> a = b).
  { intros a b E.
    assert (Ek : ket a = ket b).
    { rewrite <- (run_inverse_circuit c (ket a)),
              <- (run_inverse_circuit c (ket b)), !Hket, E. reflexivity. }
    apply (f_equal (fun s => s a)) in Ek. unfold ket in Ek.
    rewrite Nat.eqb_refl in Ek.
    destruct (Nat.eqb_spec a b) as [Eab | _]; [exact Eab |].
    unfold C1, C0 in Ek. apply (f_equal fst) in Ek. cbn [fst] in Ek. lra. }
  rewrite (run_matrix Hc), Hhi.
  rewrite (csum_ext _ _
             (fun x => if (x =? z mod 2 ^ n)%nat
                       then psi (encode n x (z / 2 ^ n)) else C0)).
  - rewrite csum_single. cbn [Nat.leb andb Nat.add].
    destruct (Nat.ltb_spec (z mod 2 ^ n) (2 ^ n)) as [_ | Hge].
    + f_equal. unfold encode. rewrite Nat.add_comm. symmetry. apply Nat.div_mod_eq.
    + pose proof (Nat.mod_upper_bound z (2 ^ n)
                    ltac:(apply Nat.pow_nonzero; lia)). lia.
  - intros x Hx. apply in_seq in Hx. rewrite Hket. unfold ket.
    rewrite <- (@encode_eqb n x (z / 2 ^ n) z) by (lia || reflexivity).
    destruct (Nat.eqb_spec z (encode n x (z / 2 ^ n))) as [Ez | Hz].
    + rewrite <- Ez, Nat.eqb_refl. cring.
    + destruct (Nat.eqb_spec (sigma z) (sigma (encode n x (z / 2 ^ n))))
        as [Es | _]; [apply Hinj in Es; contradiction | cring].
Qed.

(** ** The label maps of the adders *)

Lemma pow2_nat_neq0 (n : nat) : (2 ^ n <> 0)%nat.
Proof. apply Nat.pow_nonzero. lia. Qed.

Lemma add_const_label_high (T k z : nat) :
  add_const_label T k z / 2 ^ T = z / 2 ^ T.
Proof.
  unfold add_const_label. apply encode_div.
  apply Nat.mod_upper_bound, pow2_nat_neq0.
Qed.

Lemma add_const_label_target (T k z : nat) :
  target_value T (add_const_label T k z) = ((z mod 2 ^ T + k) mod 2 ^ T)%nat.
Proof.
  unfold add_const_label, target_value. apply encode_mod.
  apply Nat.mod_upper_bound, pow2_nat_neq0.
Qed.

Lemma sub_const_label_high (T k y : nat) :
  sub_const_label T k y / 2 ^ T = y / 2 ^ T.
Proof.
  unfold sub_const_label. apply encode_div.
  apply Nat.mod_upper_bound, pow2_nat_neq0.
Qed.

Lemma add_sub_const_label (T k y : nat) :
  add_const_label T k (sub_const_label T k y) = y.
Proof.
  unfold add_const_label at 1. rewrite sub_const_label_high.
  unfold sub_const_label, target_value.
  rewrite encode_mod by (apply Nat.mod_upper_bound, pow2_nat_neq0).
  rewrite Nat.Div0.add_mod_idemp_l.
  pose proof (Nat.mod_upper_bound k (2 ^ T) (pow2_nat_neq0 T)) as Hk.
  pose proof (Nat.div_mod_eq k (2 ^ T)) as Ek.
  replace (y mod 2 ^ T + (2 ^ T - k mod 2 ^ T) + k)%nat
    with (y mod 2 ^ T + (1 + k / 2 ^ T) * 2 ^ T)%nat by nia.
  rewrite Nat.Div0.mod_add, Nat.Div0.mod_mod.
  unfold encode. rewrite Nat.add_comm. symmetry. apply Nat.div_mod_eq.
Qed.

Lemma summand_value_same_high (T S y z : nat) :
  y / 2 ^ T = z / 2 ^ T -> summand_value T S y = summand_value T S z.
Proof. intros E. unfold summand_value. now rewrite E. Qed.

Lemma add_sub_summand_label (T S y : nat) :
  add_summand_label T S (sub_summand_label T S y) = y.
Proof.
  unfold add_summand_label, sub_summand_label.
  rewrite (@summand_value_same_high T S _ y (sub_const_label_high T _ y)).
  apply add_sub_const_label.
Qed.

Lemma div_pow2_add (T S z : nat) : z / 2 ^ (T + S) = z / 2 ^ T / 2 ^ S.
Proof. now rewrite Nat.pow_add_r, Nat.Div0.div_div. Qed.

Lemma add_summand_label_block (T S z : nat) :
  add_summand_label T S z / 2 ^ (T + S) = z / 2 ^ (T + S).
Proof.
  unfold add_summand_label.
  now rewrite !div_pow2_add, add_const_label_high.
Qed.

(** ** The adders on an arbitrary state *)

Lemma fits_adder_circuit (T S : nat) :
  Forall (fits (T + S))
    (qft_circuit T ++ spec_phase_adder T S ++ inverse_circuit (qft_circuit T)).
Proof.
  apply Forall_app; split.
  { eapply Forall_impl; [| apply fits_qft_circuit].
    intro; apply fits_mono; lia. }
  apply Forall_app; split; [apply fits_spec_phase_adder |].
  eapply Forall_impl; [| apply fits_inverse_circuit, fits_qft_circuit].
  intro; apply fits_mono; lia.
Qed.

Lemma fits_classical_adder_circuit (T : nat) (k : Z) :
  Forall (fits T)
    (qft_circuit T ++ spec_classical_phase_adder T k
     ++ inverse_circuit (qft_circuit T)).
Proof.
  apply Forall_app; split; [apply fits_qft_circuit |].
  apply Forall_app; split; [apply fits_spec_classical |].
  apply fits_inverse_circuit, fits_qft_circuit.
Qed.

Lemma adder_moves_amplitudes (T S : nat) (psi : state) (z : nat) :
  run (qft_circuit T ++ spec_phase_adder T S
       ++ inverse_circuit (qft_circuit T)) psi (add_summand_label T S z)
  = psi z.
Proof.
  apply (run_permutes (n := T + S)).
  - apply fits_adder_circuit.
  - intro z'. apply adder_on_ket.
  - apply add_summand_label_block.
Qed.

Lemma classical_adder_moves_amplitudes (T : nat) (k : Z) (psi : state) (z : nat) :
  (0 <= k)%Z ->
  run (qft_circuit T ++ spec_classical_phase_adder T k
       ++ inverse_circuit (qft_circuit T)) psi (add_const_label T (Z.to_nat k) z)
  = psi z.
Proof.
  intros Hk. apply (run_permutes (n := T)).
  - apply fits_classical_adder_circuit.
  - intro z'. now apply classical_adder_on_ket.
  - apply add_const_label_high.
Qed.

Lemma inverse_moves_back (c : list instr) (sigma : nat -> nat) :
  (forall (psi : state) (z : nat), run c psi (sigma z) = psi z) ->
  forall (psi : state) (y : nat),
    run (inverse_circuit c) psi y = psi (sigma y).
Proof.
  intros Hc psi y.
  transitivity (run c (run (inverse_circuit c) psi) (sigma y)).
  - symmetry. apply Hc.
  - now rewrite run_circuit_inverse.
Qed.

(** ** Diagonal layers commute *)

Lemma run_diagonal_comm (c d : list instr) (phi : state) :
  Forall diagonal c -> Forall diagonal d ->
  run c (run d phi) = run d (run c phi).
Proof.
  intros Hc Hd. rewrite !run_diagonal by assumption.
  extensionality y.
  generalize (Cexp (total_phase c y)), (Cexp (total_phase d y)), (phi y).
  intros. cring.
Qed.

Lemma sandwich_comm (q c d : list instr) (psi : state) :
  Forall diagonal c -> Forall diagonal d ->
  run (q ++ c ++ inverse_circuit q) (run (q ++ d ++ inverse_circuit q) psi)
  = run (q ++ d ++ inverse_circuit q) (run (q ++ c ++ inverse_circuit q) psi).
Proof.
  intros Hc Hd. rewrite !run_app, !run_circuit_inverse.
  now rewrite (@run_diagonal_comm c d (run q psi) Hc Hd).
Qed.

(** ** The transform of a basis state is flat *)

Lemma Cnorm2_scale (r : R) (a : C) : Cnorm2 (Cscale r a) = (r * r * Cnorm2 a)%R.
Proof. destruct a. unfold Cnorm2, Cscale; cbn [fst snd]. ring. Qed.

Lemma Cnorm2_diag_phase (lo len a y : nat) : Cnorm2 (diag_phase lo len a y) = 1%R.
Proof.
  unfold diag_phase. induction (seq lo len) as [| i l IH]; cbn [big_mul].
  - unfold Cnorm2, C1; cbn [fst snd]. ring.
  - rewrite Cnorm2_mul, IH. unfold kick.
    destruct (Nat.testbit y i).
    + rewrite Cnorm2_Cexp. ring.
    + unfold Cnorm2, C1; cbn [fst snd]. ring.
Qed.

Lemma prob_fourier (T z y : nat) :
  prob (fourier T z) y
  = if (y / 2 ^ T =? z / 2 ^ T)%nat then (/ 2 ^ T)%R else 0%R.
Proof.
  unfold prob, fourier, qft_stage, agree_outside.
  rewrite !Nat.mod_1_r, Nat.eqb_refl. cbn [andb]. rewrite Nat.sub_0_r.
  destruct (y / 2 ^ T =? z / 2 ^ T)%nat.
  - rewrite Cnorm2_scale, Cnorm2_diag_phase.
    rewrite <- Rpow_mult_distr, sqrt2_inv_sq, pow_inv. ring.
  - unfold Cnorm2, C0; cbn [fst snd]. ring.
Qed.

(** ** Three additions in a row *)

Lemma add_const_label_twice (T a b z : nat) :
  add_const_label T b (add_const_label T a z) = add_const_label T (a + b) z.
Proof.
  unfold add_const_label at 1.
  rewrite add_const_label_high, add_const_label_target.
  unfold add_const_label, target_value.
  rewrite Nat.Div0.add_mod_idemp_l. f_equal. f_equal. lia.
Qed.

(* ================================================================= *)
(** * The properties of the specification *)

(** ** Shape of the phase adders *)







(** ** Rejected arguments *)

(** C7, as the code has it: with [target_reg_length < 0] both builders
    fail before a gate is made, the error coming from the library's
    register constructor (from the bit expansion when [k] is negative
    too); with [target_reg_length = 0] they fail only on a negative
    second argument and otherwise return a gate without any rotation. *)
Theorem nonpositive_target_length (T S k : Z) :
  (T <= 0)%Z ->
  AdderPhaseGate T S
  = (if (T <? 0)%Z then Raise CircuitError
     else if (S <? 0)%Z then Raise CircuitError
     else Ok (mkGate (Z.to_nat S) []))
  /\ ClassicalAdderPhaseGate T k
     = (if (k <? 0)%Z then Raise ValueError
        else if (T <? 0)%Z then Raise CircuitError
        else Ok (mkGate 0 [])).
Proof.
  intros HT. split.
  - unfold AdderPhaseGate, QuantumRegister.
    destruct (T <? 0)%Z; [reflexivity |].
    destruct (S <? 0)%Z; [reflexivity |].
    cbn [bind add_register new_circuit qc_qubits qc_data].
    unfold range. replace (Z.to_nat T) with 0%nat by lia. reflexivity.
  - unfold ClassicalAdderPhaseGate.
    destruct (Z.ltb_spec k 0) as [Hk | Hk].
    + now rewrite source_bits_negative.
    + rewrite source_bits_nonneg by assumption. cbn [bind].
      unfold QuantumRegister. destruct (T <? 0)%Z; [reflexivity |].
      cbn [bind add_register new_circuit qc_qubits qc_data].
      unfold range. replace (Z.to_nat T) with 0%nat by lia. reflexivity.
Qed.

Lemma nonpositive_target_length_witness :
  AdderPhaseGate (-1) 2 = Raise CircuitError
  /\ ClassicalAdderPhaseGate (-1) 1 = Raise CircuitError.
Proof. apply (@nonpositive_target_length (-1) 2 1). lia. Defined.

(** C7 fails at length zero: both builders return a gate. *)
Lemma zero_target_length_builds :
  AdderPhaseGate 0 1 = Ok (mkGate 1 [])
  /\ ClassicalAdderPhaseGate 0 1 = Ok (mkGate 0 []).
Proof. split; reflexivity. Qed.

(** C8: for every negative [k] and positive [T],
    [ClassicalAdderPhaseGate(T, k)] raises the invalid-argument exception
    [ValueError] (from [int] on the character [b] of [bin(k)]) instead of
    building a gate. *)
Theorem negative_constant_rejected (T k : Z) :
  (0 < T)%Z -> (k < 0)%Z ->
  ClassicalAdderPhaseGate T k = Raise ValueError.
Proof.
  intros _ Hk. unfold ClassicalAdderPhaseGate.
  now rewrite source_bits_negative.
Qed.

Lemma negative_constant_rejected_witness :
  ClassicalAdderPhaseGate 3 (-5) = Raise ValueError.
Proof. apply (@negative_constant_rejected 3 (-5)); lia. Defined.

(** ** The adders on basis states *)










(** ** The orchestration *)

(** C4: with [T = 3] and [S = 2], from target [0] and the summand's lowest
    qubit in equal superposition, after [AdderGate(3,2)],
    [ClassicalAdderGate(3,1)] and [ClassicalAdderGate(3,2)] the
    measurement reads target 3 with probability 1/2 and target 4 with
    probability 1/2; the summand reads 0 together with 3 and 1 together
    with 4, with the probabilities it was prepared with. *)
Theorem main_distribution :
  exists qc : QuantumCircuit,
    main_circuit = Ok qc
    /\ qc_qubits qc = 5%nat
    /\ (forall y : nat,
          prob (run (qc_data qc) (ket 0)) y
          = if ((y =? encode 3 3 0) || (y =? encode 3 4 1))%nat
            then (1 / 2)%R else 0%R)
    /\ event_prob 5 (fun y => target_value 3 y =? 3)%nat
         (run (qc_data qc) (ket 0)) = (1 / 2)%R
    /\ event_prob 5 (fun y => target_value 3 y =? 4)%nat
         (run (qc_data qc) (ket 0)) = (1 / 2)%R
    /\ event_prob 5
         (fun y => (target_value 3 y =? 3) && (summand_value 3 2 y =? 0))%nat
         (run (qc_data qc) (ket 0)) = (1 / 2)%R
    /\ event_prob 5
         (fun y => (target_value 3 y =? 4) && (summand_value 3 2 y =? 1))%nat
         (run (qc_data qc) (ket 0)) = (1 / 2)%R
    /\ (forall s : nat,
          event_prob 5 (fun y => summand_value 3 2 y =? s)%nat
            (run (qc_data qc) (ket 0))
          = event_prob 5 (fun y => summand_value 3 2 y =? s)%nat
              (apply (H 3) (ket 0))).
Proof.
  eexists. split; [apply main_circuit_eq |]. cbn [qc_qubits qc_data].
  rewrite main_state.
  assert (Hp := main_probabilities).
  assert (Hq : forall y : nat,
             prob (apply (H 3) (ket 0)) y
             = if ((y =? 0) || (y =? 8))%nat then (1 / 2)%R else 0%R).
  { intro y. rewrite prepared_state.
    unfold prob, sscale, sadd, ket. pose proof sqrt2_inv_sq as E.
    destruct (Nat.eqb_spec y 0) as [E0 | E0];
      destruct (Nat.eqb_spec y 8) as [E8 | E8]; cbn [orb];
      try (exfalso; lia);
      unfold Cnorm2, Cscale, Cadd, C0, C1; cbn [fst snd].
    - transitivity (/ sqrt 2 * / sqrt 2)%R; [ring | rewrite E; field].
    - transitivity (/ sqrt 2 * / sqrt 2)%R; [ring | rewrite E; field].
    - ring. }
  split; [reflexivity |]. split; [exact Hp |].
  repeat split.
  - rewrite (@event_prob_ext _ _ _ _ Hp). generalize (1 / 2)%R. intro r.
    vm_compute. ring.
  - rewrite (@event_prob_ext _ _ _ _ Hp). generalize (1 / 2)%R. intro r.
    vm_compute. ring.
  - rewrite (@event_prob_ext _ _ _ _ Hp). generalize (1 / 2)%R. intro r.
    vm_compute. ring.
  - rewrite (@event_prob_ext _ _ _ _ Hp). generalize (1 / 2)%R. intro r.
    vm_compute. ring.
  - intro s. rewrite (@event_prob_ext _ _ _ _ Hp), (@event_prob_ext _ _ _ _ Hq).
    generalize (1 / 2)%R. intro r.
    destruct s as [| [| s]]; [vm_compute; ring | vm_compute; ring |].
    cbv [seq Nat.pow Nat.mul Nat.add map rsum fold_right].
    cbv [summand_value Nat.pow Nat.mul Nat.add].
    cbn. ring.
Qed.

(** ** The transform and its inverse *)

(** C9: for every positive [num_qubits], every [approximation_degree]
    and either [do_swaps] convention, [QFTGate] builds a gate, and that
    gate followed by its inverse, with the same parameters, returns every
    basis state (indeed every state) exactly; both for the inverse
    obtained from the gate, as [AdderGate] takes it, and for the one built
    with [inverse=True]. *)
Theorem QFTGate_round_trip
        (num_qubits approximation_degree : nat) (do_swaps : bool)
        (x : nat) (psi : state) :
  (0 < num_qubits)%nat ->
  exists g g_inv : Gate,
    QFTGate num_qubits approximation_degree do_swaps false false = Ok g
    /\ QFTGate num_qubits approximation_degree do_swaps true false = Ok g_inv
    /\ run_gate (inverse g) (run_gate g (ket x)) = ket x
    /\ run_gate g_inv (run_gate g (ket x)) = ket x
    /\ run_gate (inverse g) (run_gate g psi) = psi
    /\ run_gate g_inv (run_gate g psi) = psi.
Proof.
  intros _. unfold QFTGate. cbn [andb]. eexists _, _.
  split; [reflexivity |]. split; [reflexivity |].
  unfold run_gate, inverse, QFT. cbn [definition].
  repeat split; apply run_inverse_circuit.
Qed.

Lemma QFTGate_round_trip_witness :
  exists g g_inv : Gate,
    QFTGate 3 0 false false false = Ok g
    /\ QFTGate 3 0 false true false = Ok g_inv
    /\ run_gate (inverse g) (run_gate g (ket 5)) = ket 5
    /\ run_gate g_inv (run_gate g (ket 5)) = ket 5
    /\ run_gate (inverse g) (run_gate g (ket 2)) = ket 2
    /\ run_gate g_inv (run_gate g (ket 2)) = ket 2.
Proof. apply (@QFTGate_round_trip 3 0 false 5 (ket 2)). lia. Defined.

(** ** The zero constant *)

(** C10: for positive [T] the constant 0 has the bit list [[0]], so
    [ClassicalAdderPhaseGate(T, 0)] holds no rotation, and both it and
    [ClassicalAdderGate(T, 0)] leave every state unchanged. *)
Theorem zero_constant_is_identity (T : Z) :
  (0 < T)%Z ->
  mapM int_of_char (slice_last_to_2 (bin 0)) = Ok [0%Z]
  /\ ClassicalAdderPhaseGate T 0 = Ok (mkGate (Z.to_nat T) [])
  /\ (forall psi : state, run_gate (mkGate (Z.to_nat T) []) psi = psi)
  /\ exists g : Gate,
       ClassicalAdderGate T 0 = Ok g
       /\ forall psi : state, run_gate g psi = psi.
Proof.
  intros HT. set (t := Z.to_nat T).
  assert (ET : T = Z.of_nat t) by (unfold t; lia).
  assert (E0 : spec_classical_phase_adder t 0 = []).
  { unfold spec_classical_phase_adder.
    induction (seq 0 t) as [| i l IH]; [reflexivity |].
    cbn [flat_map]. rewrite IH, app_nil_r.
    induction (seq 0 (Nat.min (i + 1) (bit_length 0))) as [| j l' IH'];
      [reflexivity |].
    cbn [flat_map]. now rewrite Z.testbit_0_l. }
  split; [reflexivity |]. split.
  { rewrite ET at 1.
    rewrite ClassicalAdderPhaseGate_eq by (lia || apply phase_overflows_zero).
    now rewrite E0. }
  split; [reflexivity |].
  exists (mkGate t (qft_circuit t ++ spec_classical_phase_adder t 0
                    ++ inverse_circuit (qft_circuit t))).
  split.
  - rewrite ET at 1.
    apply ClassicalAdderGate_eq; [lia | apply phase_overflows_zero].
  - intro psi. unfold run_gate. cbn [definition].
    rewrite E0, app_nil_l, run_app. apply run_inverse_circuit.
Qed.

Lemma zero_constant_is_identity_witness :
  mapM int_of_char (slice_last_to_2 (bin 0)) = Ok [0%Z]
  /\ ClassicalAdderPhaseGate 3 0 = Ok (mkGate (Z.to_nat 3) [])
  /\ (forall psi : state, run_gate (mkGate (Z.to_nat 3) []) psi = psi)
  /\ exists g : Gate,
       ClassicalAdderGate 3 0 = Ok g
       /\ forall psi : state, run_gate g psi = psi.
Proof. apply (@zero_constant_is_identity 3). lia. Defined.

(* ================================================================= *)
(** * Further properties of the builders *)

(** ** Results and errors of the composite builders *)

(** [AdderGate] fails in exactly two ways: with the register
    constructor's error when a length is negative, and with
    [OverflowError] when the target is 1024 or more qubits wide and the
    summand is not empty (the phase adder then needs [2 pi / 2^1024]).
    Otherwise, lengths 0 included, it returns a gate on the [T + S] qubits
    whose definition is the swap-free transform, the phase adder and the
    inverse transform, in this order and on the positions they were built
    for: the arity checks of [append] never fail. *)
Theorem AdderGate_result (T S : Z) :
  match AdderGate T S with
  | Raise e =>
      (e = CircuitError /\ (T < 0 \/ S < 0)%Z)
      \/ (e = OverflowError /\ (1024 <= T)%Z /\ (1 <= S)%Z)
  | Ok g =>
      (0 <= T)%Z /\ (0 <= S)%Z /\ (T <= 1023 \/ S = 0)%Z
      /\ num_qubits g = (Z.to_nat T + Z.to_nat S)%nat
      /\ exists qft pg : Gate,
           QFTGate (Z.to_nat T) 0 false false false = Ok qft
           /\ AdderPhaseGate T S = Ok pg
           /\ definition g
              = definition qft ++ definition pg ++ definition (inverse qft)
  end.
Proof.
  destruct (Z.ltb_spec T 0) as [HT | HT].
  { rewrite AdderGate_negative by lia. left. split; [reflexivity | lia]. }
  destruct (Z.ltb_spec S 0) as [HS | HS].
  { rewrite AdderGate_negative by lia. left. split; [reflexivity | lia]. }
  rewrite <- (Z2Nat.id T), <- (Z2Nat.id S) by assumption.
  destruct (Nat.le_gt_cases (Z.to_nat T) 1023) as [Hsmall | Hbig];
    [| destruct (Nat.eq_dec (Z.to_nat S) 0) as [E0 | Hne]].
  - rewrite AdderGate_eq, AdderPhaseGate_eq by (left; assumption).
    cbn [num_qubits definition]. rewrite !Nat2Z.id.
    repeat split; try lia.
    eexists _, _. split; [apply QFTGate_swap_free |].
    split; reflexivity.
  - rewrite AdderGate_eq, AdderPhaseGate_eq by (right; assumption).
    cbn [num_qubits definition]. rewrite !Nat2Z.id.
    repeat split; try lia.
    eexists _, _. split; [apply QFTGate_swap_free |].
    split; reflexivity.
  - rewrite AdderGate_overflow by lia. right. split; [reflexivity | lia].
Qed.

(** [ClassicalAdderGate] fails in exactly three ways, checked in this
    order: a negative length gives the register constructor's error (even
    when [k] is negative too), a negative [k] gives [ValueError], and a
    set bit [j] of [k] with [j + 1024 <= T] gives [OverflowError]; every
    other call returns a gate on [T] qubits.  [ClassicalAdderPhaseGate]
    reads the constant first, so with both arguments negative it raises
    [ValueError] instead. *)
Theorem ClassicalAdderGate_result (T k : Z) :
  match ClassicalAdderGate T k with
  | Raise e =>
      e = (if (T <? 0)%Z then CircuitError
           else if (k <? 0)%Z then ValueError else OverflowError)
      /\ (T < 0 \/ k < 0
          \/ exists j : nat,
               Z.testbit k (Z.of_nat j) = true /\ Z.of_nat j + 1024 <= T)%Z
  | Ok g =>
      (0 <= T)%Z /\ (0 <= k)%Z
      /\ (forall j : nat,
            Z.testbit k (Z.of_nat j) = true -> (T <= Z.of_nat j + 1023)%Z)
      /\ num_qubits g = Z.to_nat T
  end
  /\ (if ((T <? 0) && (k <? 0))%Z
      then ClassicalAdderGate T k = Raise CircuitError
           /\ ClassicalAdderPhaseGate T k = Raise ValueError
      else True).
Proof.
  split.
  - destruct (Z.ltb_spec T 0) as [HT | HT].
    { rewrite ClassicalAdderGate_negative_length by lia.
      split; [reflexivity | lia]. }
    destruct (Z.ltb_spec k 0) as [Hk | Hk].
    { rewrite ClassicalAdderGate_negative_constant by lia.
      split; [reflexivity | lia]. }
    pose proof (@ClassicalAdderGate_cases (Z.to_nat T) k Hk) as E.
    rewrite Z2Nat.id in E by assumption. rewrite E.
    destruct (phase_overflows (Z.to_nat T) k) eqn:Eo.
    + split; [reflexivity |]. right. right.
      apply phase_overflows_true in Eo. destruct Eo as [j [Hj Hb]].
      exists j. split; [exact Hb | lia].
    + cbn [num_qubits]. repeat split; try lia.
      intros j Hb. pose proof (phase_overflows_false _ _ j Eo Hb). lia.
  - destruct (Z.ltb_spec T 0) as [HT | HT]; [| exact I].
    destruct (Z.ltb_spec k 0) as [Hk | Hk]; [| exact I].
    cbn [andb]. split.
    + now apply ClassicalAdderGate_negative_length.
    + unfold ClassicalAdderPhaseGate. now rewrite source_bits_negative.
Qed.

(** ** The bit list *)

(** For [k >= 0] the bit list of [ClassicalAdderPhaseGate] reads back as
    [k]: its entries are 0 or 1, their weighted sum is [k], and its last
    entry, the most significant one, is 1 unless [k] is zero. *)
Theorem bit_list_reads_back (k : Z) :
  (0 <= k)%Z ->
  exists bits : list Z,
    mapM int_of_char (slice_last_to_2 (bin k)) = Ok bits
    /\ decode_bits bits = k
    /\ Forall (fun b => b = 0%Z \/ b = 1%Z) bits
    /\ last bits 0%Z = (if (k =? 0)%Z then 0%Z else 1%Z).
Proof.
  intros Hk. exists (lsb_bits k).
  split; [now apply source_bits_nonneg |].
  destruct k as [| p | p]; [| | lia].
  - repeat split. constructor; [now left | constructor].
  - cbn [lsb_bits]. split; [apply decode_pos_bits |].
    split; [apply pos_bits_binary | apply last_pos_bits].
Qed.

Lemma bit_list_reads_back_witness :
  exists bits : list Z,
    mapM int_of_char (slice_last_to_2 (bin 6)) = Ok bits
    /\ decode_bits bits = 6%Z
    /\ Forall (fun b => b = 0%Z \/ b = 1%Z) bits
    /\ last bits 0%Z = (if (6 =? 0)%Z then 0%Z else 1%Z).
Proof. apply (@bit_list_reads_back 6). lia. Defined.

(** ** Bits of the constant beyond the target width *)

(** Only the bits of [k] below the target width are used: for [T >= 0]
    and [k >= 0] both classical builders return for [k] the very gate
    they return for [k mod 2^T] (and fail for the one exactly when they
    fail for the other). *)
Theorem constant_taken_modulo (T k : Z) :
  (0 <= T)%Z -> (0 <= k)%Z ->
  ClassicalAdderPhaseGate T (k mod 2 ^ T) = ClassicalAdderPhaseGate T k
  /\ ClassicalAdderGate T (k mod 2 ^ T) = ClassicalAdderGate T k.
Proof.
  intros HT Hk.
  assert (Hm : (0 <= k mod 2 ^ T)%Z).
  { apply Z.mod_pos_bound. apply Z.pow_pos_nonneg; lia. }
  pose proof (@ClassicalAdderPhaseGate_cases (Z.to_nat T) k Hk) as E1.
  pose proof (@ClassicalAdderPhaseGate_cases (Z.to_nat T) _ Hm) as E2.
  pose proof (@ClassicalAdderGate_cases (Z.to_nat T) k Hk) as E3.
  pose proof (@ClassicalAdderGate_cases (Z.to_nat T) _ Hm) as E4.
  pose proof (@spec_classical_mod (Z.to_nat T) k Hk) as E5.
  pose proof (phase_overflows_mod (Z.to_nat T) k) as E6.
  rewrite Z2Nat.id in E1, E2, E3, E4, E5, E6 by assumption.
  rewrite E1, E2, E3, E4, E5, E6. split; reflexivity.
Qed.

Lemma constant_taken_modulo_witness :
  ClassicalAdderPhaseGate 3 (13 mod 2 ^ 3) = ClassicalAdderPhaseGate 3 13
  /\ ClassicalAdderGate 3 (13 mod 2 ^ 3) = ClassicalAdderGate 3 13.
Proof. apply (@constant_taken_modulo 3 13); lia. Defined.

(** ** Size of the phase adder *)

(** Where it builds a gate ([T <= 1023] or [S = 0]),
    [AdderPhaseGate(T, S)] holds [T (T + 1) / 2] controlled rotations when
    the summand is at least as wide as the target, and
    [S (S + 1) / 2 + S (T - S)] otherwise. *)
Theorem AdderPhaseGate_size (T S : nat) :
  (T <= 1023 \/ S = 0)%nat ->
  exists g : Gate,
    AdderPhaseGate (Z.of_nat T) (Z.of_nat S) = Ok g
    /\ (2 * length (definition g)
        = if T <=? S then T * (T + 1)
          else S * (S + 1) + 2 * S * (T - S))%nat.
Proof.
  intros Hsmall.
  eexists. split; [now apply AdderPhaseGate_eq |]. cbn [definition].
  unfold spec_phase_adder.
  destruct (length_triangle
              (fun i j => CP (2 * PI / 2 ^ (1 + i - j)) (T + j) i) T S)
    as [Hle Hge].
  destruct (Nat.leb_spec T S); [apply Hle | apply Hge]; lia.
Qed.

Lemma AdderPhaseGate_size_witness :
  exists g : Gate,
    AdderPhaseGate (Z.of_nat 5) (Z.of_nat 2) = Ok g
    /\ (2 * length (definition g)
        = if 5 <=? 2 then 5 * (5 + 1)
          else 2 * (2 + 1) + 2 * 2 * (5 - 2))%nat.
Proof. apply (@AdderPhaseGate_size 5 2). left. lia. Defined.

(** ** What a phase adder alone shows *)

(** Without the transforms around them the phase adders cannot be seen
    in a measurement: on every state the gates of [AdderPhaseGate] and
    [ClassicalAdderPhaseGate], built for a width [T <= 1023], leave the
    probability of every label as it was. *)
Theorem phase_adders_keep_probabilities (T S : nat) (k : Z) :
  (T <= 1023)%nat -> (0 <= k)%Z ->
  exists g gk : Gate,
    AdderPhaseGate (Z.of_nat T) (Z.of_nat S) = Ok g
    /\ ClassicalAdderPhaseGate (Z.of_nat T) k = Ok gk
    /\ (forall (psi : state) (y : nat), prob (run_gate g psi) y = prob psi y)
    /\ (forall (psi : state) (y : nat), prob (run_gate gk psi) y = prob psi y).
Proof.
  intros HT Hk. eexists _, _.
  split; [apply AdderPhaseGate_eq; now left |].
  split; [apply ClassicalAdderPhaseGate_eq;
          [assumption | now apply phase_overflows_small] |].
  unfold run_gate. cbn [definition]. split; intros psi y.
  - apply prob_run_diagonal, diagonal_spec_phase_adder.
  - apply prob_run_diagonal, diagonal_spec_classical.
Qed.

Lemma phase_adders_keep_probabilities_witness :
  exists g gk : Gate,
    AdderPhaseGate (Z.of_nat 3) (Z.of_nat 2) = Ok g
    /\ ClassicalAdderPhaseGate (Z.of_nat 3) 5 = Ok gk
    /\ (forall (psi : state) (y : nat), prob (run_gate g psi) y = prob psi y)
    /\ (forall (psi : state) (y : nat), prob (run_gate gk psi) y = prob psi y).
Proof. apply (@phase_adders_keep_probabilities 3 2 5); lia. Defined.

(** ** [qubit_list] *)

(** [qubit_list] returns the qubits of its registers in the order given,
    register after register; nothing is dropped or repeated. *)
Theorem qubit_list_concat (registers : list (list nat)) :
  qubit_list registers = concat registers
  /\ length (qubit_list registers) = list_sum (map (@length nat) registers)
  /\ (forall r1 r2 : list (list nat),
        qubit_list (r1 ++ r2) = qubit_list r1 ++ qubit_list r2).
Proof.
  assert (E : forall rs, qubit_list rs = concat rs).
  { intro rs. unfold qubit_list. now rewrite qubit_list_acc. }
  split; [apply E |]. split.
  - rewrite E. induction registers as [| r rs IH]; [reflexivity |].
    cbn [concat map list_sum fold_right]. rewrite length_app, IH. reflexivity.
  - intros r1 r2. rewrite !E. apply concat_app.
Qed.

(** ** Where the angle cannot be computed *)

(** The phase builders raise [OverflowError] exactly where a rotation
    angle [2 pi / 2^e] with [e >= 1024] would be needed:
    [AdderPhaseGate(T, S)] when [T >= 1024] and [S >= 1],
    [ClassicalAdderPhaseGate(T, k)], [k >= 0], when some set bit [j] of
    [k] has [j + 1024 <= T]. *)
Theorem phase_builders_overflow (T S : nat) (k : Z) :
  (0 <= k)%Z ->
  (AdderPhaseGate (Z.of_nat T) (Z.of_nat S) = Raise OverflowError
   <-> (1024 <= T /\ 1 <= S)%nat)
  /\ (ClassicalAdderPhaseGate (Z.of_nat T) k = Raise OverflowError
      <-> exists j : nat,
            Z.testbit k (Z.of_nat j) = true /\ (j + 1024 <= T)%nat).
Proof.
  intros Hk. split; split.
  - intros E.
    destruct (Nat.le_gt_cases T 1023) as [Hs | Hb];
      [| destruct (Nat.eq_dec S 0) as [E0 | Hne]].
    + rewrite AdderPhaseGate_eq in E by now left. discriminate E.
    + rewrite AdderPhaseGate_eq in E by now right. discriminate E.
    + lia.
  - intros [HT HS]. now apply AdderPhaseGate_overflow.
  - intros E. rewrite ClassicalAdderPhaseGate_cases in E by assumption.
    destruct (phase_overflows T k) eqn:Eo; [| discriminate E].
    apply phase_overflows_true in Eo. destruct Eo as [j [Hj Hb]].
    now exists j.
  - intros [j [Hb Hj]]. apply ClassicalAdderPhaseGate_overflow; [assumption |].
    destruct (phase_overflows T k) eqn:Eo; [reflexivity |].
    pose proof (phase_overflows_false _ _ j Eo Hb). lia.
Qed.

Lemma phase_builders_overflow_witness :
  (AdderPhaseGate (Z.of_nat 1024) (Z.of_nat 1) = Raise OverflowError
   <-> (1024 <= 1024 /\ 1 <= 1)%nat)
  /\ (ClassicalAdderPhaseGate (Z.of_nat 1024) 2 = Raise OverflowError
      <-> exists j : nat,
            Z.testbit 2 (Z.of_nat j) = true /\ (j + 1024 <= 1024)%nat).
Proof. apply (@phase_builders_overflow 1024 1 2). lia. Defined.

(** ** The adders on arbitrary states *)

(** On every state, basis or superposed, whatever further qubits the
    circuit has, the gate of [ClassicalAdderGate(T, k)] with
    [0 <= T <= 1023] and any [k >= 0] (not only [k < 2^T]) moves each
    amplitude from the label
    [z] to the label whose target field is [(z_target + k) mod 2^T] and
    whose other qubits are those of [z]. *)
Theorem ClassicalAdderGate_on_states (T k : Z) :
  (0 <= T <= 1023)%Z -> (0 <= k)%Z ->
  exists g : Gate,
    ClassicalAdderGate T k = Ok g
    /\ (forall z : nat,
          run_gate g (ket z) = ket (add_const_label (Z.to_nat T) (Z.to_nat k) z))
    /\ (forall (psi : state) (z : nat),
          run_gate g psi (add_const_label (Z.to_nat T) (Z.to_nat k) z) = psi z)
    /\ (forall (psi : state) (y : nat),
          run_gate g psi y = psi (sub_const_label (Z.to_nat T) (Z.to_nat k) y)).
Proof.
  intros HT Hk.
  assert (Hno : phase_overflows (Z.to_nat T) k = false)
    by (apply phase_overflows_small; lia).
  pose proof (@ClassicalAdderGate_eq (Z.to_nat T) k Hk Hno) as E.
  rewrite Z2Nat.id in E by lia.
  eexists. split; [exact E |]. unfold run_gate. cbn [definition].
  split; [| split].
  - intro z. now apply classical_adder_on_ket.
  - intros psi z. now apply classical_adder_moves_amplitudes.
  - intros psi y.
    rewrite <- (add_sub_const_label (Z.to_nat T) (Z.to_nat k) y) at 1.
    now apply classical_adder_moves_amplitudes.
Qed.

Lemma ClassicalAdderGate_on_states_witness :
  exists g : Gate,
    ClassicalAdderGate 3 13 = Ok g
    /\ (forall z : nat,
          run_gate g (ket z) = ket (add_const_label (Z.to_nat 3) (Z.to_nat 13) z))
    /\ (forall (psi : state) (z : nat),
          run_gate g psi (add_const_label (Z.to_nat 3) (Z.to_nat 13) z) = psi z)
    /\ (forall (psi : state) (y : nat),
          run_gate g psi y = psi (sub_const_label (Z.to_nat 3) (Z.to_nat 13) y)).
Proof. apply (@ClassicalAdderGate_on_states 3 13); lia. Defined.

(** On every state the gate of [AdderGate(T, S)], [T <= 1023], moves each
    amplitude from the label [z] to the label whose target field is
    [(z_target + z_summand) mod 2^T]; the summand and all further qubits
    keep their values. *)
Theorem AdderGate_on_states (T S : nat) :
  (T <= 1023)%nat ->
  exists g : Gate,
    AdderGate (Z.of_nat T) (Z.of_nat S) = Ok g
    /\ (forall z : nat, run_gate g (ket z) = ket (add_summand_label T S z))
    /\ (forall z : nat,
          summand_value T S (add_summand_label T S z) = summand_value T S z
          /\ add_summand_label T S z / 2 ^ (T + S) = z / 2 ^ (T + S)
          /\ target_value T (add_summand_label T S z)
             = ((target_value T z + summand_value T S z) mod 2 ^ T)%nat)
    /\ (forall (psi : state) (z : nat),
          run_gate g psi (add_summand_label T S z) = psi z)
    /\ (forall (psi : state) (y : nat),
          run_gate g psi y = psi (sub_summand_label T S y)).
Proof.
  intros HT.
  eexists. split; [apply AdderGate_eq; now left |].
  unfold run_gate. cbn [definition].
  split; [| split; [| split]].
  - intro z. apply adder_on_ket.
  - intro z. split; [| split].
    + apply summand_value_same_high. apply add_const_label_high.
    + apply add_summand_label_block.
    + apply add_const_label_target.
  - intros psi z. apply adder_moves_amplitudes.
  - intros psi y. rewrite <- (add_sub_summand_label T S y) at 1.
    apply adder_moves_amplitudes.
Qed.

Lemma AdderGate_on_states_witness :
  exists g : Gate,
    AdderGate (Z.of_nat 3) (Z.of_nat 2) = Ok g
    /\ (forall z : nat, run_gate g (ket z) = ket (add_summand_label 3 2 z))
    /\ (forall z : nat,
          summand_value 3 2 (add_summand_label 3 2 z) = summand_value 3 2 z
          /\ add_summand_label 3 2 z / 2 ^ (3 + 2) = z / 2 ^ (3 + 2)
          /\ target_value 3 (add_summand_label 3 2 z)
             = ((target_value 3 z + summand_value 3 2 z) mod 2 ^ 3)%nat)
    /\ (forall (psi : state) (z : nat),
          run_gate g psi (add_summand_label 3 2 z) = psi z)
    /\ (forall (psi : state) (y : nat),
          run_gate g psi y = psi (sub_summand_label 3 2 y)).
Proof. apply (@AdderGate_on_states 3 2). lia. Defined.

(** ** Undoing an addition *)

(** The inverse of an adder built for a width [T <= 1023] subtracts: on
    every state it moves the
    amplitude of the label the adder would reach back to the label the
    adder started from. *)
Theorem inverse_adders_subtract (T S : nat) (k : Z) :
  (T <= 1023)%nat -> (0 <= k)%Z ->
  exists g gk : Gate,
    AdderGate (Z.of_nat T) (Z.of_nat S) = Ok g
    /\ ClassicalAdderGate (Z.of_nat T) k = Ok gk
    /\ (forall z : nat,
          run_gate (inverse g) (ket (add_summand_label T S z)) = ket z)
    /\ (forall z : nat,
          run_gate (inverse gk) (ket (add_const_label T (Z.to_nat k) z)) = ket z)
    /\ (forall (psi : state) (y : nat),
          run_gate (inverse g) psi y = psi (add_summand_label T S y))
    /\ (forall (psi : state) (y : nat),
          run_gate (inverse gk) psi y = psi (add_const_label T (Z.to_nat k) y)).
Proof.
  intros HT Hk. eexists _, _.
  split; [apply AdderGate_eq; now left |].
  split; [apply ClassicalAdderGate_eq;
          [assumption | now apply phase_overflows_small] |].
  unfold run_gate, inverse. cbn [definition].
  split; [| split; [| split]].
  - intro z. unfold add_summand_label, add_const_label.
    rewrite <- adder_on_ket. apply run_inverse_circuit.
  - intro z. unfold add_const_label.
    rewrite <- classical_adder_on_ket by assumption.
    apply run_inverse_circuit.
  - apply inverse_moves_back. intros psi z. apply adder_moves_amplitudes.
  - apply inverse_moves_back. intros psi z.
    now apply classical_adder_moves_amplitudes.
Qed.

Lemma inverse_adders_subtract_witness :
  exists g gk : Gate,
    AdderGate (Z.of_nat 3) (Z.of_nat 2) = Ok g
    /\ ClassicalAdderGate (Z.of_nat 3) 5 = Ok gk
    /\ (forall z : nat,
          run_gate (inverse g) (ket (add_summand_label 3 2 z)) = ket z)
    /\ (forall z : nat,
          run_gate (inverse gk) (ket (add_const_label 3 (Z.to_nat 5) z)) = ket z)
    /\ (forall (psi : state) (y : nat),
          run_gate (inverse g) psi y = psi (add_summand_label 3 2 y))
    /\ (forall (psi : state) (y : nat),
          run_gate (inverse gk) psi y = psi (add_const_label 3 (Z.to_nat 5) y)).
Proof. apply (@inverse_adders_subtract 3 2 5); lia. Defined.

(** ** Order of the additions *)

(** The additions can be applied in any order: on every state two
    classical adders commute, and a classical adder commutes with the
    quantum adder built for the same target width [T <= 1023]. *)
Theorem adders_commute (T S : nat) (k1 k2 : Z) :
  (T <= 1023)%nat -> (0 <= k1)%Z -> (0 <= k2)%Z ->
  exists g g1 g2 : Gate,
    AdderGate (Z.of_nat T) (Z.of_nat S) = Ok g
    /\ ClassicalAdderGate (Z.of_nat T) k1 = Ok g1
    /\ ClassicalAdderGate (Z.of_nat T) k2 = Ok g2
    /\ (forall psi : state,
          run_gate g2 (run_gate g1 psi) = run_gate g1 (run_gate g2 psi))
    /\ (forall psi : state,
          run_gate g1 (run_gate g psi) = run_gate g (run_gate g1 psi)).
Proof.
  intros HT H1 H2. eexists _, _, _.
  split; [apply AdderGate_eq; now left |].
  split; [apply ClassicalAdderGate_eq;
          [assumption | now apply phase_overflows_small] |].
  split; [apply ClassicalAdderGate_eq;
          [assumption | now apply phase_overflows_small] |].
  unfold run_gate. cbn [definition]. split; intro psi.
  - apply sandwich_comm; apply diagonal_spec_classical.
  - apply sandwich_comm;
      [apply diagonal_spec_classical | apply diagonal_spec_phase_adder].
Qed.

Lemma adders_commute_witness :
  exists g g1 g2 : Gate,
    AdderGate (Z.of_nat 3) (Z.of_nat 2) = Ok g
    /\ ClassicalAdderGate (Z.of_nat 3) 1 = Ok g1
    /\ ClassicalAdderGate (Z.of_nat 3) 2 = Ok g2
    /\ (forall psi : state,
          run_gate g2 (run_gate g1 psi) = run_gate g1 (run_gate g2 psi))
    /\ (forall psi : state,
          run_gate g1 (run_gate g psi) = run_gate g (run_gate g1 psi)).
Proof. apply (@adders_commute 3 2 1 2); lia. Defined.

(** ** The sequence of [main] for any widths and constants *)

(** The quantum adder followed by two classical adders, as [main] chains
    them, for a width [T <= 1023] takes the basis state with target [x]
    and summand [s] to target [(x + s + k1 + k2) mod 2^T] with the
    summand still [s]. *)
Theorem adder_chain (T S : nat) (k1 k2 : Z) (x s : nat) :
  (T <= 1023)%nat ->
  (0 <= k1)%Z -> (0 <= k2)%Z -> (x < 2 ^ T)%nat -> (s < 2 ^ S)%nat ->
  exists g g1 g2 : Gate,
    AdderGate (Z.of_nat T) (Z.of_nat S) = Ok g
    /\ ClassicalAdderGate (Z.of_nat T) k1 = Ok g1
    /\ ClassicalAdderGate (Z.of_nat T) k2 = Ok g2
    /\ run_gate g2 (run_gate g1 (run_gate g (ket (encode T x s))))
       = ket (encode T ((x + s + Z.to_nat k1 + Z.to_nat k2) mod 2 ^ T) s).
Proof.
  intros HT H1 H2 Hx Hs. eexists _, _, _.
  split; [apply AdderGate_eq; now left |].
  split; [apply ClassicalAdderGate_eq;
          [assumption | now apply phase_overflows_small] |].
  split; [apply ClassicalAdderGate_eq;
          [assumption | now apply phase_overflows_small] |].
  unfold run_gate. cbn [definition].
  rewrite adder_on_ket.
  change (encode T ((target_value T (encode T x s)
                     + summand_value T S (encode T x s)) mod 2 ^ T)
                 (encode T x s / 2 ^ T))
    with (add_const_label T (summand_value T S (encode T x s)) (encode T x s)).
  rewrite classical_adder_on_ket by assumption.
  change (encode T ((target_value T ?z + Z.to_nat k1) mod 2 ^ T) (?z / 2 ^ T))
    with (add_const_label T (Z.to_nat k1) z).
  rewrite classical_adder_on_ket by assumption.
  change (encode T ((target_value T ?z + Z.to_nat k2) mod 2 ^ T) (?z / 2 ^ T))
    with (add_const_label T (Z.to_nat k2) z).
  rewrite !add_const_label_twice. f_equal.
  unfold add_const_label, target_value, summand_value.
  rewrite encode_mod, encode_div by assumption.
  rewrite (Nat.mod_small s) by assumption.
  f_equal. f_equal. lia.
Qed.

Lemma adder_chain_witness :
  exists g g1 g2 : Gate,
    AdderGate (Z.of_nat 3) (Z.of_nat 2) = Ok g
    /\ ClassicalAdderGate (Z.of_nat 3) 1 = Ok g1
    /\ ClassicalAdderGate (Z.of_nat 3) 2 = Ok g2
    /\ run_gate g2 (run_gate g1 (run_gate g (ket (encode 3 6 3))))
       = ket (encode 3 ((6 + 3 + Z.to_nat 1 + Z.to_nat 2) mod 2 ^ 3) 3).
Proof.
  apply (@adder_chain 3 2 1 2 6 3); [lia | lia | lia | simpl; lia | simpl; lia].
Defined.

(** ** The transform of a basis state *)

(** The swap-free gate of [QFTGate], as the adders use it, turns a basis
    state into a state in which every value of the transformed register
    is read with the same probability [1 / 2^n]; the qubits above the
    register keep their values. *)
Theorem QFTGate_flat (n : nat) :
  exists g : Gate,
    QFTGate n 0 false false false = Ok g
    /\ forall z y : nat,
         prob (run_gate g (ket z)) y
         = if (y / 2 ^ n =? z / 2 ^ n)%nat then (/ 2 ^ n)%R else 0%R.
Proof.
  eexists. split; [apply QFTGate_swap_free |]. intros z y.
  unfold run_gate. cbn [definition].
  rewrite run_qft_circuit_ket. apply prob_fourier.
Qed.
